(** * Reactor Library: the router outlet and the app-state engine

    A shallow embedding of [packages/core/src/routing/RouterOutlet.js] and of
    the store that the project's README documents ([createEntity],
    [withStore], [getPropsFromStore]), with the properties stated about them.

    JavaScript objects used as dictionaries are finite maps ([gmap string _]);
    arrays are lists; a property that is absent reads as [JUndefined]. *)

From stdpp Require Import gmap strings list fin_maps.

Set Warnings "-register-all".

(** ** JavaScript values *)

Module Js.

(** The values that travel through props and route descriptors.  A function
    whose body plays no role (a component, a lazy component, a bound action)
    is a [JFun] named by its identity. *)
Inductive jsval : Type :=
| JUndefined
| JNull
| JBool (b : bool)
| JNum (z : Z)
| JNaN
| JStr (s : string)
| JFun (name : string)
| JObj (fields : list (string * jsval)).

(** [ToBoolean]: what [v ? a : b], [!v], [v && w] and [v || w] test. *)
Definition truthy (v : jsval) : bool :=
  match v with
  | JUndefined | JNull | JNaN => false
  | JBool b => b
  | JNum z => negb (z =? 0)%Z
  | JStr s => negb (String.eqb s "")
  | JFun _ | JObj _ => true
  end.

(** What PropTypes' [func] and [object] accept. *)
Definition is_func_or_object (v : jsval) : bool :=
  match v with
  | JFun _ | JObj _ => true
  | _ => false
  end.

(** [obj.k] on a plain object; [undefined] on anything else. *)
Fixpoint assoc (k : string) (fields : list (string * jsval)) : jsval :=
  match fields with
  | [] => JUndefined
  | (k', v) :: fields' => if String.eqb k k' then v else assoc k fields'
  end.

Definition get (k : string) (v : jsval) : jsval :=
  match v with
  | JObj fields => assoc k fields
  | _ => JUndefined
  end.

(** [{...obj, k: v}] *)
Fixpoint put (k : string) (v : jsval) (fields : list (string * jsval))
  : list (string * jsval) :=
  match fields with
  | [] => [(k, v)]
  | (k', v') :: fields' =>
      if String.eqb k k' then (k, v) :: fields' else (k', v') :: put k v fields'
  end.

Definition set (k : string) (v : jsval) (obj : jsval) : jsval :=
  match obj with
  | JObj fields => JObj (put k v fields)
  | _ => JObj [(k, v)]
  end.

(** [v + 1] on a number. *)
Definition succ (v : jsval) : jsval :=
  match v with
  | JNum z => JNum (z + 1)
  | _ => JNaN
  end.

End Js.

(** ** RouterOutlet.js *)

Module Routing.
Import Js.

(** The React elements the outlet builds.  [Route]'s [render] prop is the
    closure [props => ...] of the source, kept as a function of the render
    props react-router will pass to it. *)
Inductive element : Type :=
| Host (tag : string)
| Value (v : jsval)
| Component (type : jsval) (props : gmap string jsval)
| Suspense (fallback : element) (child : element)
| Redirect (key : nat) (from exact strict to push : jsval)
| Route (key : nat) (path exact strict : jsval)
        (render : gmap string jsval -> element)
| Switch (children : list element).

Section Outlet.

(** Whatever mutable state a consumer's guard can reach (the Store, a global,
    a clock).  The outlet itself has no access to it. *)
Context {W : Type}.

(** The binding [import { Suspense } from 'react']: [JUndefined] on a React
    that does not export it, which is what [Suspense ? ... : ...] tests. *)
Variable React_Suspense : jsval.

(** A guard is consumer code: it receives a props object, may read and write
    the consumer's state, and returns a value that is tested for truthiness. *)
Definition guard : Type := gmap string jsval -> W -> jsval * W.

Record route : Type := {
  path : jsval;
  exact : jsval;
  strict : jsval;
  component : jsval;
  canEnter : option guard;
  fallback : jsval;
  redirectTo : jsval;
  push : jsval;
  routes : jsval
}.

(** The props object of [<RouterOutlet>].  Its [routes] property holds
    functions and is kept typed; [own] holds every other own property. *)
Record outlet_props : Type := {
  props_routes : list route;
  own : gmap string jsval
}.

(** [{ routes, placeholder, ..._props }] *)
Definition placeholder_of (ps : outlet_props) : jsval :=
  default JUndefined (own ps !! "placeholder").

Definition rest_props (ps : outlet_props) : gmap string jsval :=
  delete "placeholder" (delete "routes" (own ps)).

(** Evaluation threads the consumer's state and records, as ghost state,
    each guard invocation: the index of the route and the argument passed. *)
Record machine : Type := {
  world : W;
  calls : list (nat * gmap string jsval)
}.

Definition M (A : Type) : Type := machine -> A * machine.

Definition ret {A} (x : A) : M A := fun s => (x, s).

Definition bind {A B} (c : M A) (k : A -> M B) : M B :=
  fun s => let '(x, s') := c s in k x s'.

Notation "'let!' x ':=' c 'in' k" := (bind c (fun x => k))
  (at level 10, x name, c at level 200, k at level 200).

Definition call_guard (index : nat) (g : guard) (_props : gmap string jsval)
  : M jsval :=
  fun s =>
    let '(v, w) := g _props (world s) in
    (v, {| world := w; calls := calls s ++ [(index, _props)] |}).

(** [props => Suspense ? <Suspense fallback={placeholder || <div />}>
      <route.component {...props} routes={route.routes} /></Suspense>
    : <route.component {...props} routes={route.routes} />] *)
Definition render (route : route) (placeholder : jsval)
    (props : gmap string jsval) : element :=
  if truthy React_Suspense then
    Suspense (if truthy placeholder then Value placeholder else Host "div")
             (Component (component route) (<["routes" := routes route]> props))
  else
    Component (component route) (<["routes" := routes route]> props).

(** The body of [routes.map((route, index) => ...)]. *)
Definition outlet_child (placeholder : jsval) (_props : gmap string jsval)
    (route : route) (index : nat) : M element :=
  if truthy (redirectTo route) then
    ret (Redirect index (path route) (exact route) (strict route)
                  (redirectTo route) (push route))
  else
    let! refused := match canEnter route with
                   | None => ret false
                   | Some g =>
                       let! v := call_guard index g _props in
                       ret (negb (truthy v))
                   end in
    if (refused : bool) then
      ret (Redirect index (path route) (exact route) (strict route)
                    (fallback route) (push route))
    else
      ret (Route index (path route) (exact route) (strict route)
                 (render route placeholder)).

(** [Array.prototype.map], left to right, the callback given the index. *)
Fixpoint map_from {A B} (f : A -> nat -> M B) (index : nat) (l : list A)
  : M (list B) :=
  match l with
  | [] => ret []
  | x :: l' =>
      let! y := f x index in
      let! ys := map_from f (S index) l' in
      ret (y :: ys)
  end.

Definition RouterOutlet (ps : outlet_props) : M element :=
  let! children := map_from (outlet_child (placeholder_of ps) (rest_props ps))
                           0 (props_routes ps) in
  ret (Switch children).

(** The machine state in which route number [i] is reached. *)
Definition state_before (ps : outlet_props) (i : nat) (s : machine) : machine :=
  (map_from (outlet_child (placeholder_of ps) (rest_props ps))
            0 (take i (props_routes ps)) s).2.

(** The invocations that one evaluation appends to the record. *)
Definition added_calls (ps : outlet_props) (s : machine)
  : list (nat * gmap string jsval) :=
  drop (length (calls s)) (calls (RouterOutlet ps s).2).

(** The same, read off the route table. *)
Fixpoint guard_calls (_props : gmap string jsval) (index : nat)
    (l : list route) : list (nat * gmap string jsval) :=
  match l with
  | [] => []
  | r :: l' =>
      (if truthy (redirectTo r) then []
       else match canEnter r with
            | Some _ => [(index, _props)]
            | None => []
            end)
      ++ guard_calls _props (S index) l'
  end.

(** The component type an element puts on screen, if it is a component
    (bare or inside a Suspense boundary). *)
Definition rendered_type (e : element) : option jsval :=
  match e with
  | Component c _ => Some c
  | Suspense _ (Component c _) => Some c
  | _ => None
  end.

(** Whether the guard of [r], if any, lets the route through in world [w]. *)
Definition admits (r : route) (_props : gmap string jsval) (w : W) : bool :=
  match canEnter r with
  | None => true
  | Some g => truthy (g _props w).1
  end.

(** A guard that is a function of its argument alone. *)
Definition pure_guard (g : guard) : Prop :=
  exists f : gmap string jsval -> jsval, forall p w, g p w = (f p, w).

Definition pure_guards (l : list route) : Prop :=
  Forall (fun r => forall g, canEnter r = Some g -> pure_guard g) l.

End Outlet.

Arguments route : clear implicits.
Arguments guard : clear implicits.
Arguments machine : clear implicits.
Arguments outlet_props : clear implicits.

(** *** Sample inputs *)

Section Samples.

Context {W : Type}.

Definition React16 : jsval := JFun "Suspense".

(** A React that does not export [Suspense]. *)
Definition React15 : jsval := JUndefined.

(** [props => props.authenticated] *)
Definition isAuthenticated : guard W :=
  fun props w => (default JUndefined (props !! "authenticated"), w).

Definition plain (pth cmp : jsval) : route W :=
  {| path := pth; exact := JUndefined; strict := JUndefined;
     component := cmp; canEnter := None; fallback := JUndefined;
     redirectTo := JUndefined; push := JUndefined; routes := JUndefined |}.

(** The route table of the README, with the guarded [/default] of its
    "Protected Routes" section. *)
Definition login_route : route W := plain (JStr "/login") (JFun "LoginPage").

Definition default_route : route W :=
  {| path := JStr "/default"; exact := JUndefined; strict := JUndefined;
     component := JFun "DefaultPage"; canEnter := Some isAuthenticated;
     fallback := JStr "/login"; redirectTo := JUndefined;
     push := JUndefined; routes := JUndefined |}.

Definition root_route : route W :=
  {| path := JStr "/"; exact := JBool true; strict := JUndefined;
     component := JUndefined; canEnter := None;
     fallback := JUndefined; redirectTo := JStr "/default";
     push := JUndefined; routes := JUndefined |}.

Definition not_found : route W := plain JUndefined (JFun "NotFound").

Definition readme_props (signed_in : bool) : outlet_props W :=
  {| props_routes := [login_route; default_route; root_route; not_found];
     own := <["authenticated" := JBool signed_in]>
              (<["placeholder" := JFun "Spinner"]> ∅) |}.

(** A redirection that also carries a guard. *)
Definition guarded_redirect : route W :=
  {| path := JStr "/admin"; exact := JUndefined; strict := JUndefined;
     component := JUndefined; canEnter := Some isAuthenticated;
     fallback := JStr "/login"; redirectTo := JStr "/default";
     push := JBool true; routes := JUndefined |}.

(** Routes whose [redirectTo] is the empty string. *)
Definition blank_redirect : route W :=
  {| path := JStr "/old"; exact := JUndefined; strict := JUndefined;
     component := JFun "OldPage"; canEnter := None; fallback := JUndefined;
     redirectTo := JStr ""; push := JUndefined; routes := JUndefined |}.

Definition blank_redirect_guarded : route W :=
  {| path := JStr "/old"; exact := JUndefined; strict := JUndefined;
     component := JFun "OldPage"; canEnter := Some isAuthenticated;
     fallback := JStr "/login"; redirectTo := JStr "";
     push := JUndefined; routes := JUndefined |}.

Definition only (r : route W) : outlet_props W :=
  {| props_routes := [r]; own := ∅ |}.

End Samples.

Definition start : machine unit := {| world := tt; calls := [] |}.

(** A guard that reads a flag of the consumer's state and flips it:
    [() => { const ok = flag; flag = !flag; return ok; }] *)
Definition toggling : guard bool := fun _ flag => (JBool flag, negb flag).

Definition toggled_route : route bool :=
  {| path := JStr "/default"; exact := JUndefined; strict := JUndefined;
     component := JFun "DefaultPage"; canEnter := Some toggling;
     fallback := JStr "/login"; redirectTo := JUndefined;
     push := JUndefined; routes := JUndefined |}.

Definition flag_is (b : bool) : machine bool := {| world := b; calls := [] |}.

(** *** Reading the outlet's output *)

(** The children of the [<Switch>] the outlet returns. *)
Definition outlet_children {W} (React_Suspense : jsval) (ps : outlet_props W)
    (s : machine W) : list element :=
  match (RouterOutlet React_Suspense ps s).1 with
  | Switch children => children
  | _ => []
  end.

(** [key] and the matching props ([from] or [path], [exact], [strict]) of a
    [<Redirect>] or [<Route>]. *)
Definition routing_fields (e : element) : option (nat * jsval * jsval * jsval) :=
  match e with
  | Redirect key from exact strict _ _ => Some (key, from, exact, strict)
  | Route key path exact strict _ => Some (key, path, exact, strict)
  | _ => None
  end.

Definition is_Route (e : element) : bool :=
  match e with
  | Route _ _ _ _ _ => true
  | _ => false
  end.

(** [to] and [push] of a [<Redirect>]. *)
Definition redirect_target (e : element) : option (jsval * jsval) :=
  match e with
  | Redirect _ _ _ _ to push => Some (to, push)
  | _ => None
  end.

(** The [fallback] of a [<Suspense>]. *)
Definition suspense_fallback (e : element) : option element :=
  match e with
  | Suspense fallback _ => Some fallback
  | _ => None
  end.

(** What evaluating one route does to the consumer's state. *)
Definition guard_effect {W} (_props : gmap string jsval) (w : W)
    (r : route W) : W :=
  if truthy (redirectTo r) then w
  else match canEnter r with
       | Some g => (g _props w).2
       | None => w
       end.

(** A route whose guard, if it has one, is never reached. *)
Definition unguarded {W} (r : route W) : bool :=
  match canEnter r with
  | None => true
  | Some _ => truthy (redirectTo r)
  end.

(** The same props object with another [routes] array. *)
Definition with_routes {W} (l : list (route W)) (ps : outlet_props W)
  : outlet_props W :=
  {| props_routes := l; own := own ps |}.

(** *** routePropType and RouterOutlet.propTypes *)

(** The checkers of the prop-types package that the file uses, on the values
    modelled here.  A checker that is not [isRequired] accepts [undefined]
    and [null]; the primitive ones compare [typeof]. *)
Definition is_nullish (v : jsval) : bool :=
  match v with
  | JUndefined | JNull => true
  | _ => false
  end.

Definition PropTypes_string (v : jsval) : bool :=
  is_nullish v || match v with JStr _ => true | _ => false end.

Definition PropTypes_bool (v : jsval) : bool :=
  is_nullish v || match v with JBool _ => true | _ => false end.

Definition PropTypes_func (v : jsval) : bool :=
  is_nullish v || match v with JFun _ => true | _ => false end.

Definition PropTypes_object (v : jsval) : bool :=
  is_nullish v || match v with JObj _ => true | _ => false end.

(** No value modelled here is an array, so [arrayOf] accepts only an absent
    one. *)
Definition PropTypes_arrayOf (item : jsval -> bool) (v : jsval) : bool :=
  is_nullish v.

Definition PropTypes_oneOfType (checkers : list (jsval -> bool)) (v : jsval)
  : bool :=
  is_nullish v || existsb (fun check => check v) checkers.

(** [routePropType]: the [shape] checks the listed keys and ignores the
    others.  [canEnter] is a function whenever it is present. *)
Definition routePropType {W} (r : route W) : bool :=
  PropTypes_oneOfType [PropTypes_string; PropTypes_arrayOf PropTypes_string]
                      (path r)
  && PropTypes_bool (exact r)
  && PropTypes_bool (strict r)
  && PropTypes_oneOfType [PropTypes_func; PropTypes_object] (component r)
  && PropTypes_oneOfType [PropTypes_string; PropTypes_object] (fallback r)
  && PropTypes_oneOfType [PropTypes_string; PropTypes_object] (redirectTo r)
  && PropTypes_bool (push r).

(** [RouterOutlet.propTypes] *)
Definition propTypes {W} (ps : outlet_props W) : bool :=
  forallb routePropType (props_routes ps)
  && PropTypes_oneOfType [PropTypes_func; PropTypes_object]
                         (placeholder_of ps).

End Routing.

(** ** RouterOutlet.js, with guards that throw or write to [_props] *)

(** The same source, evaluated with all a guard can do as a JavaScript
    function: besides reading and writing the consumer's state it may write
    to the one rest object [_props] that every guard is handed, and it may
    throw, which ends [routes.map] there.  [Routing] above is this
    evaluation for guards that do neither. *)
Module RoutingFx.
Import Js.
Import Routing (element, Host, Value, Component, Suspense, Redirect, Route,
                Switch).

Section Outlet.

Context {W : Type}.

Variable React_Suspense : jsval.

(** How a call ends. *)
Inductive answer : Type :=
| Returns (v : jsval)
| Throws (e : jsval).

(** What a call of a guard leaves: its answer, the contents of the object
    it was handed, and the consumer's state. *)
Record verdict : Type := {
  result : answer;
  props_after : gmap string jsval;
  world_after : W
}.

(** A guard, given the contents of the object it is handed and the
    consumer's state. *)
Definition guard : Type := gmap string jsval -> W -> verdict.

Record route : Type := {
  path : jsval;
  exact : jsval;
  strict : jsval;
  component : jsval;
  canEnter : option guard;
  fallback : jsval;
  redirectTo : jsval;
  push : jsval;
  routes : jsval
}.

Record outlet_props : Type := {
  props_routes : list route;
  own : gmap string jsval
}.

(** [{ routes, placeholder, ..._props }] *)
Definition placeholder_of (ps : outlet_props) : jsval :=
  default JUndefined (own ps !! "placeholder").

Definition rest_props (ps : outlet_props) : gmap string jsval :=
  delete "placeholder" (delete "routes" (own ps)).

(** The consumer's state, the contents of the rest object [_props] of this
    evaluation, and the record of guard invocations: index of the route and
    contents of the object at the call. *)
Record machine : Type := {
  world : W;
  _props : gmap string jsval;
  calls : list (nat * gmap string jsval)
}.

(** A computation returns a value or ends in an exception. *)
Definition M (A : Type) : Type := machine -> (jsval + A) * machine.

Definition ret {A} (x : A) : M A := fun s => (inr x, s).

Definition bind {A B} (c : M A) (k : A -> M B) : M B :=
  fun s =>
    match c s with
    | (inl e, s') => (inl e, s')
    | (inr x, s') => k x s'
    end.

Notation "'let!' x ':=' c 'in' k" := (bind c (fun x => k))
  (at level 10, x name, c at level 200, k at level 200).

(** [route.canEnter(_props)] *)
Definition call_guard (index : nat) (g : guard) : M jsval :=
  fun s =>
    let v := g (_props s) (world s) in
    let s' := {| world := world_after v;
                 _props := props_after v;
                 calls := calls s ++ [(index, _props s)] |} in
    match result v with
    | Returns x => (inr x, s')
    | Throws e => (inl e, s')
    end.

Definition render (route : route) (placeholder : jsval)
    (props : gmap string jsval) : element :=
  if truthy React_Suspense then
    Suspense (if truthy placeholder then Value placeholder else Host "div")
             (Component (component route) (<["routes" := routes route]> props))
  else
    Component (component route) (<["routes" := routes route]> props).

(** The body of [routes.map((route, index) => ...)]. *)
Definition outlet_child (placeholder : jsval) (route : route) (index : nat)
  : M element :=
  if truthy (redirectTo route) then
    ret (Redirect index (path route) (exact route) (strict route)
                  (redirectTo route) (push route))
  else
    let! refused := match canEnter route with
                    | None => ret false
                    | Some g =>
                        let! v := call_guard index g in
                        ret (negb (truthy v))
                    end in
    if (refused : bool) then
      ret (Redirect index (path route) (exact route) (strict route)
                    (fallback route) (push route))
    else
      ret (Route index (path route) (exact route) (strict route)
                 (render route placeholder)).

Fixpoint map_from {A B} (f : A -> nat -> M B) (index : nat) (l : list A)
  : M (list B) :=
  match l with
  | [] => ret []
  | x :: l' =>
      let! y := f x index in
      let! ys := map_from f (S index) l' in
      ret (y :: ys)
  end.

(** The machine an evaluation starts in: the rest object is made anew by
    the destructuring of the parameter. *)
Definition enter (ps : outlet_props) (w : W) : machine :=
  {| world := w; _props := rest_props ps; calls := [] |}.

Definition RouterOutlet (ps : outlet_props) (w : W)
  : (jsval + element) * machine :=
  (let! children := map_from (outlet_child (placeholder_of ps))
                             0 (props_routes ps) in
   ret (Switch children)) (enter ps w).

(** The machine in which route number [i] is reached, if it is. *)
Definition state_before (ps : outlet_props) (i : nat) (w : W) : machine :=
  (map_from (outlet_child (placeholder_of ps))
            0 (take i (props_routes ps)) (enter ps w)).2.

(** A guard that leaves the object it is handed as it found it. *)
Definition writes_nothing (g : guard) : Prop :=
  forall p w, props_after (g p w) = p.

Definition write_nothing (l : list route) : Prop :=
  Forall (fun r => forall g, canEnter r = Some g -> writes_nothing g) l.

End Outlet.

Arguments verdict : clear implicits.
Arguments guard : clear implicits.
Arguments route : clear implicits.
Arguments outlet_props : clear implicits.
Arguments machine : clear implicits.

(** A guard of [Routing] as a guard here: it returns and writes nothing. *)
Definition lift_guard {W} (g : Routing.guard W) : guard W :=
  fun p w =>
    {| result := Returns (g p w).1; props_after := p;
       world_after := (g p w).2 |}.

Definition lift_route {W} (r : Routing.route W) : route W :=
  {| path := Routing.path r; exact := Routing.exact r;
     strict := Routing.strict r; component := Routing.component r;
     canEnter := lift_guard <$> Routing.canEnter r;
     fallback := Routing.fallback r; redirectTo := Routing.redirectTo r;
     push := Routing.push r; routes := Routing.routes r |}.

Definition lift_props {W} (ps : Routing.outlet_props W) : outlet_props W :=
  {| props_routes := lift_route <$> Routing.props_routes ps;
     own := Routing.own ps |}.

(** *** Sample inputs *)

(** [props => props.session.auth !== null], called with no [session]. *)
Definition failing : guard unit :=
  fun p w =>
    {| result := Throws (JStr "TypeError"); props_after := p;
       world_after := w |}.

(** [props => { props.routes = 'mine'; return true; }] *)
Definition scribbling : guard unit :=
  fun p w =>
    {| result := Returns (JBool true);
       props_after := <["routes" := JStr "mine"]> p; world_after := w |}.

(** [props => props.authenticated] *)
Definition isAuthenticated : guard unit :=
  fun p w =>
    {| result := Returns (default JUndefined (p !! "authenticated"));
       props_after := p; world_after := w |}.

Definition guarded (pth : string) (g : guard unit) : route unit :=
  {| path := JStr pth; exact := JUndefined; strict := JUndefined;
     component := JFun "Page"; canEnter := Some g;
     fallback := JStr "/login"; redirectTo := JUndefined;
     push := JUndefined; routes := JUndefined |}.

Definition signed_in (l : list (route unit)) : outlet_props unit :=
  {| props_routes := l;
     own := <["authenticated" := JBool true]>
              (<["placeholder" := JFun "Spinner"]> ∅) |}.

End RoutingFx.

(** ** The app-state engine *)

Module AppState.
Import Js.

Section Engine.

(** Effect procedures are consumer code.  The store only invokes them, giving
    each invocation a completion handle; what they do is outside it. *)
Context {Effect : Type}.

(** Modelled from the spec: the Reaction Descriptor of section 3 (the code of
    [createEntity] is not among the sources).  A simple reaction is a
    function [(state, payload) => newState]; an async one is the array
    [[startup?, effect, completion]]. *)
Inductive reaction : Type :=
| Simple (transition : jsval -> jsval -> jsval)
| Async (startup : option (jsval -> jsval -> jsval))
        (effect : Effect)
        (completion : jsval -> jsval -> jsval).

(** Modelled from the spec: the entity declaration of section 6, the
    arguments of [createEntity(reactions, initialState)]. *)
Record declaration : Type := {
  reactions : gmap string reaction;
  initialState : jsval
}.

(** Modelled from the spec: the Entity of section 3. *)
Record Entity : Type := {
  name : string;
  state : jsval;
  reactionTable : gmap string reaction
}.

Definition with_state (newState : jsval) (e : Entity) : Entity :=
  {| name := name e; state := newState; reactionTable := reactionTable e |}.

(** Modelled from the spec: a subscriber of section 3.  Its update callback
    is consumer code; calling it is recorded as an [Update] event. *)
Record subscriber : Type := {
  componentIdentity : nat;
  entityNames : list string;
  actionNames : list string
}.

(** What an observer of the store sees, in order. *)
Inductive event : Type :=
| Replaced (entityName : string) (newState : jsval)
| Notify (entityName : string)
| Update (component : nat) (props : gmap string jsval)
| EffectInvoked (effect : Effect) (payload : jsval) (handle : nat)
| Completed (handle : nat) (result : jsval).

(** Modelled from the spec: the error taxonomy of section 7. *)
Inductive error : Type :=
| DuplicateActionError (actionName : string)
| UnknownActionError (actionName : string)
| UnknownEntityError (entityName : string).

(** Modelled from the spec: the Store of section 3, with the completion
    handles still outstanding and the event record. *)
Record Store : Type := {
  entities : gmap string Entity;
  actionRegistry : gmap string (string * reaction);
  subscribers : list subscriber;
  pending : gmap nat (string * (jsval -> jsval -> jsval));
  next_handle : nat;
  trace : list event
}.

Definition log (evs : list event) (s : Store) : Store :=
  {| entities := entities s; actionRegistry := actionRegistry s;
     subscribers := subscribers s; pending := pending s;
     next_handle := next_handle s; trace := trace s ++ evs |}.

Definition with_entities (m : gmap string Entity) (s : Store) : Store :=
  {| entities := m; actionRegistry := actionRegistry s;
     subscribers := subscribers s; pending := pending s;
     next_handle := next_handle s; trace := trace s |}.

Definition with_subscribers (l : list subscriber) (s : Store) : Store :=
  {| entities := entities s; actionRegistry := actionRegistry s;
     subscribers := l; pending := pending s;
     next_handle := next_handle s; trace := trace s |}.

Definition with_pending (m : gmap nat (string * (jsval -> jsval -> jsval)))
    (next : nat) (s : Store) : Store :=
  {| entities := entities s; actionRegistry := actionRegistry s;
     subscribers := subscribers s; pending := m;
     next_handle := next; trace := trace s |}.

(** *** Construction *)

(** Modelled from the spec: [construct] of section 4.2 (the code of
    [withStore] is not among the sources).  Actions are registered one by
    one; meeting a name that is registered already fails with
    [DuplicateActionError] naming it. *)
Definition register (entityName : string)
    (acc : error + gmap string (string * reaction))
    (ar : string * reaction) : error + gmap string (string * reaction) :=
  match acc with
  | inl e => inl e
  | inr reg =>
      match reg !! ar.1 with
      | Some _ => inl (DuplicateActionError ar.1)
      | None => inr (<[ar.1 := (entityName, ar.2)]> reg)
      end
  end.

Definition register_entity (acc : error + gmap string (string * reaction))
    (nd : string * declaration) : error + gmap string (string * reaction) :=
  foldl (register nd.1) acc (map_to_list (reactions nd.2)).

Definition build_registry (decls : gmap string declaration)
  : error + gmap string (string * reaction) :=
  foldl register_entity (inr ∅) (map_to_list decls).

(** The registrations [build_registry] makes, in the order it makes them:
    action name, owning entity, reaction. *)
Definition registrations (decls : gmap string declaration)
  : list (string * (string * reaction)) :=
  nd ← map_to_list decls;
  (fun ar => (ar.1, (nd.1, ar.2))) <$> map_to_list (reactions nd.2).

Definition register_one (acc : error + gmap string (string * reaction))
    (x : string * (string * reaction))
  : error + gmap string (string * reaction) :=
  register x.2.1 acc (x.1, x.2.2).

Definition initial_entity (entityName : string) (d : declaration) : Entity :=
  {| name := entityName; state := initialState d;
     reactionTable := reactions d |}.

Definition construct (decls : gmap string declaration) : error + Store :=
  match build_registry decls with
  | inl e => inl e
  | inr reg =>
      inr {| entities := map_imap (fun n d => Some (initial_entity n d)) decls;
             actionRegistry := reg;
             subscribers := [];
             pending := ∅;
             next_handle := 0;
             trace := [] |}
  end.

(** *** Notification *)

(** Modelled from the spec: the injected prop set of sections 4.3 and 6,
    [{ ...entityStates, ...boundActionFunctions }]; a bound action function
    is named by its action.  In a spread the later entry wins and
    [list_to_map] keeps the first binding, so the functions come first. *)
Definition injected (s : Store) (sub : subscriber) : gmap string jsval :=
  list_to_map
    (((fun a => (a, JFun a)) <$> actionNames sub)
     ++ omap (fun n => (fun e => (n, state e)) <$> entities s !! n)
             (entityNames sub)).

(** The update callbacks [notify] makes: one per subscriber whose
    subscription list includes the entity, in registration order. *)
Definition updates (entityName : string) (s : Store) : list event :=
  (fun sub => Update (componentIdentity sub) (injected s sub))
    <$> filter (fun sub => entityName ∈ entityNames sub) (subscribers s).

(** Modelled from the spec: [notify] of section 4.2. *)
Definition notify (entityName : string) (s : Store) : Store :=
  log (Notify entityName :: updates entityName s) s.

(** One published state replacement: the slice is replaced, then [notify]. *)
Definition publish (entityName : string) (newState : jsval) (s : Store)
  : Store :=
  notify entityName
    (log [Replaced entityName newState]
         (with_entities (alter (with_state newState) entityName (entities s))
                        s)).

(** *** Dispatch *)

(** Step (b) of an async reaction: [effect(payload, complete)] is called with
    a fresh completion handle, which stays outstanding. *)
Definition invoke_effect (entityName : string) (effect : Effect)
    (payload : jsval) (completion : jsval -> jsval -> jsval) (s : Store)
  : Store :=
  log [EffectInvoked effect payload (next_handle s)]
      (with_pending (<[next_handle s := (entityName, completion)]> (pending s))
                    (S (next_handle s)) s).

(** Modelled from the spec: the execution of a Reaction Descriptor,
    section 4.1. *)
Definition execute (rd : reaction) (entityName : string) (current : jsval)
    (payload : jsval) (s : Store) : Store :=
  match rd with
  | Simple transition => publish entityName (transition current payload) s
  | Async startup effect completion =>
      invoke_effect entityName effect payload completion
        match startup with
        | Some f => publish entityName (f current payload) s
        | None => s
        end
  end.

(** Modelled from the spec: [dispatch] of section 4.2.  A failure leaves the
    store it is raised from. *)
Definition dispatch (actionName : string) (payload : jsval) (s : Store)
  : Store * option error :=
  match actionRegistry s !! actionName with
  | None => (s, Some (UnknownActionError actionName))
  | Some (entityName, rd) =>
      match entities s !! entityName with
      | None => (s, Some (UnknownEntityError entityName))
      | Some e => (execute rd entityName (state e) payload s, None)
      end
  end.

(** Modelled from the spec: the [complete] continuation of step (c).  It
    applies [completion] to the latest state; a handle that is not
    outstanding (spent, or never issued) does nothing. *)
Definition complete (handle : nat) (result : jsval) (s : Store)
  : Store * option error :=
  match pending s !! handle with
  | None => (s, None)
  | Some (entityName, completion) =>
      match entities s !! entityName with
      | None => (s, Some (UnknownEntityError entityName))
      | Some e =>
          (publish entityName (completion (state e) result)
             (log [Completed handle result]
                  (with_pending (delete handle (pending s))
                                (next_handle s) s)),
           None)
      end
  end.

(** Modelled from the spec: [getState] of section 4.2. *)
Definition getState (entityName : string) (s : Store) : error + jsval :=
  match entities s !! entityName with
  | None => inl (UnknownEntityError entityName)
  | Some e => inr (state e)
  end.

(** Modelled from the spec: [subscribe] and [unsubscribe] of section 4.3. *)
Definition subscribe (sub : subscriber) (s : Store) : Store :=
  log [Update (componentIdentity sub) (injected s sub)]
      (with_subscribers (subscribers s ++ [sub]) s).

Definition unsubscribe (component : nat) (s : Store) : Store :=
  with_subscribers
    (filter (fun sub => componentIdentity sub <> component) (subscribers s)) s.

(** *** Runs *)

(** The stores an application can be in: the constructed one, and what
    dispatching, completing, subscribing and unsubscribing make of it. *)
Inductive reachable (decls : gmap string declaration) : Store -> Prop :=
| reach_construct s :
    construct decls = inr s -> reachable decls s
| reach_dispatch s actionName payload :
    reachable decls s -> reachable decls (dispatch actionName payload s).1
| reach_complete s handle result :
    reachable decls s -> reachable decls (complete handle result s).1
| reach_subscribe s sub :
    reachable decls s -> reachable decls (subscribe sub s)
| reach_unsubscribe s component :
    reachable decls s -> reachable decls (unsubscribe component s).

(** What can happen to a store while the completion handle [h] is not
    invoked: any step but [complete h]. *)
Inductive runs_without (h : nat) (s : Store) : Store -> Prop :=
| rw_here : runs_without h s s
| rw_dispatch s' actionName payload :
    runs_without h s s' ->
    runs_without h s (dispatch actionName payload s').1
| rw_complete s' handle result :
    handle <> h ->
    runs_without h s s' ->
    runs_without h s (complete handle result s').1
| rw_subscribe s' sub :
    runs_without h s s' -> runs_without h s (subscribe sub s')
| rw_unsubscribe s' component :
    runs_without h s s' -> runs_without h s (unsubscribe component s').

(** The events a step appended. *)
Definition added (s s' : Store) : list event :=
  drop (length (trace s)) (trace s').

Definition replacements (evs : list event) : list (string * jsval) :=
  omap (fun ev => match ev with
                  | Replaced n st => Some (n, st)
                  | _ => None
                  end) evs.

Definition notifications (evs : list event) : list string :=
  omap (fun ev => match ev with Notify n => Some n | _ => None end) evs.

Definition updates_of (component : nat) (evs : list event)
  : list (gmap string jsval) :=
  omap (fun ev => match ev with
                  | Update c props => if decide (c = component)
                                      then Some props else None
                  | _ => None
                  end) evs.

(** Entity [entityName] declares action [actionName]. *)
Definition declares (decls : gmap string declaration)
    (entityName actionName : string) : Prop :=
  exists d, decls !! entityName = Some d /\ is_Some (reactions d !! actionName).

(** Invariant I1 on a set of declarations. *)
Definition unique_actions (decls : gmap string declaration) : Prop :=
  forall e1 e2 a, declares decls e1 a -> declares decls e2 a -> e1 = e2.

(** What every reachable store satisfies: registered actions and outstanding
    handles belong to entities of the store, outstanding handles were issued,
    and a handle whose completion ran was issued and is spent. *)
Definition wf (s : Store) : Prop :=
  (forall a n rd, actionRegistry s !! a = Some (n, rd) ->
                  is_Some (entities s !! n)) /\
  (forall h n c, pending s !! h = Some (n, c) ->
                 is_Some (entities s !! n) /\ h < next_handle s) /\
  (forall h r, Completed h r ∈ trace s ->
               h < next_handle s /\ pending s !! h = None).

(** What a step can have done to the entity map: nothing, or one state
    replacement. *)
Definition same_or_replaced (n : string) (s s' : Store) : Prop :=
  entities s' = entities s \/
  exists st, entities s' = alter (with_state st) n (entities s).

(** What a run never changes about the entities. *)
Definition as_declared (decls : gmap string declaration) (s : Store)
  : Prop :=
  (forall a n rd,
      actionRegistry s !! a = Some (n, rd) <->
      exists d, decls !! n = Some d /\ reactions d !! a = Some rd) /\
  (forall n, is_Some (entities s !! n) <-> is_Some (decls !! n)) /\
  (forall n e,
      entities s !! n = Some e ->
      name e = n /\
      exists d, decls !! n = Some d /\ reactionTable e = reactions d).

End Engine.

Arguments reaction : clear implicits.
Arguments declaration : clear implicits.
Arguments Entity : clear implicits.
Arguments event : clear implicits.
Arguments Store : clear implicits.

(** *** The scenarios of the specification *)

(** Effect procedures are named here by a string. *)
Definition blank : Store string :=
  {| entities := ∅; actionRegistry := ∅; subscribers := [];
     pending := ∅; next_handle := 0; trace := [] |}.

Definition built (decls : gmap string (declaration string)) : Store string :=
  match construct decls with
  | inr s => s
  | inl _ => blank
  end.

(** Scenario A: [counter], initially [{count: 0}], with
    [increment: (s) => ({count: s.count + 1})]. *)
Definition increment (s payload : jsval) : jsval :=
  JObj [("count", succ (get "count" s))].

Definition counter : declaration string :=
  {| reactions := {["increment" := Simple increment]};
     initialState := JObj [("count", JNum 0)] |}.

Definition counter_decls : gmap string (declaration string) :=
  {["counter" := counter]}.

Definition counter_view : subscriber :=
  {| componentIdentity := 1; entityNames := ["counter"];
     actionNames := ["increment"] |}.

Definition counter_app : Store string :=
  subscribe counter_view (built counter_decls).

(** Scenario B: [session], initially [{auth: null, error: false}], with the
    three-step [login]. *)
Definition login_startup (s payload : jsval) : jsval :=
  set "pending" (JBool true) s.

Definition login_completion (s r : jsval) : jsval :=
  set "pending" (JBool false) (set "auth" (get "auth" r) s).

Definition session : declaration string :=
  {| reactions :=
       {["login" := Async (Some login_startup) "login" login_completion]};
     initialState := JObj [("auth", JNull); ("error", JBool false)] |}.

Definition session_decls : gmap string (declaration string) :=
  {["session" := session]}.

Definition session_app : Store string := built session_decls.

Definition session_view : subscriber :=
  {| componentIdentity := 7; entityNames := ["session"];
     actionNames := ["login"] |}.

Definition session_live : Store string :=
  subscribe session_view (built session_decls).

Definition other_creds : jsval :=
  JObj [("username", JStr "v"); ("password", JStr "q")].

Definition creds : jsval :=
  JObj [("username", JStr "u"); ("password", JStr "p")].

(** The [session] entity of the README: a two-step [login] and [logout]. *)
Definition or_default (d v : jsval) : jsval :=
  match v with
  | JUndefined => d
  | _ => v
  end.

(** [(state, { auth = null, error = false }) => ({ ...state, auth, error })] *)
Definition readme_login_completion (s r : jsval) : jsval :=
  set "error" (or_default (JBool false) (get "error" r))
      (set "auth" (or_default JNull (get "auth" r)) s).

(** [state => ({ ...state, auth: null })] *)
Definition readme_logout (s payload : jsval) : jsval := set "auth" JNull s.

Definition readme_session : declaration string :=
  {| reactions :=
       <["login" := Async None "login" readme_login_completion]>
         {["logout" := Simple readme_logout]};
     initialState := JObj [("auth", JNull); ("error", JBool false)] |}.

Definition readme_decls : gmap string (declaration string) :=
  {["session" := readme_session]}.

Definition readme_app : Store string := built readme_decls.

(** Scenario C: two entities that both declare [save]. *)
Definition saver : declaration string :=
  {| reactions := {["save" := Simple (fun s _ => s)]};
     initialState := JNull |}.

Definition clashing_decls : gmap string (declaration string) :=
  <["draft" := saver]> {["note" := saver]}.

End AppState.

(** ** Facts about the router outlet *)

Module RoutingSpec.
Import Js Routing.

Lemma func_or_object_truthy v : is_func_or_object v = true -> truthy v = true.
Proof. by destruct v. Qed.

Lemma truthy_bool v b : v = JBool b -> truthy v = true <-> v = JBool true.
Proof. intros ->. simpl. split; [by intros -> | by intros [= ->]]. Qed.

Section Facts.

Context {W : Type} (React_Suspense : jsval).

Implicit Types (r : route W) (s : machine W) (ps : outlet_props W).
Implicit Types (g : guard W) (l : list (route W)).

Local Abbreviation child := (outlet_child React_Suspense).

Ltac run_step c :=
  let y := fresh "y" in
  let s1 := fresh "s" in
  let E := fresh "E" in
  destruct c as [y s1] eqn:E; simpl in *.

Lemma map_from_length {A B} (f : A -> nat -> M (W:=W) B) xs :
  forall index s, length (map_from f index xs s).1 = length xs.
Proof.
  induction xs as [|x xs IH]; intros index s; [done|].
  simpl. unfold bind.
  run_step (f x index s).
  specialize (IH (S index) s0).
  run_step (map_from f (S index) xs s0).
  by rewrite IH.
Qed.

(** Element [i] of the result is the callback run on item [i], in the state
    the preceding items left. *)
Lemma map_from_lookup {A B} (f : A -> nat -> M (W:=W) B) xs :
  forall index s i x,
    xs !! i = Some x ->
    (map_from f index xs s).1 !! i
    = Some (f x (index + i) (map_from f index (take i xs) s).2).1.
Proof.
  induction xs as [|a xs IH]; intros index s i x Hx; [done|].
  destruct i as [|i]; simpl in *; unfold bind, ret.
  - injection Hx as ->. rewrite Nat.add_0_r.
    run_step (f x index s).
    by run_step (map_from f (S index) xs s0).
  - run_step (f a index s).
    specialize (IH (S index) s0 i x Hx).
    rewrite <- Nat.add_succ_comm.
    run_step (map_from f (S index) xs s0).
    rewrite IH.
    by run_step (map_from f (S index) (take i xs) s0).
Qed.

Lemma outlet_child_calls ph _props r index s :
  calls (child ph _props r index s).2
  = calls s ++ guard_calls _props index [r].
Proof.
  unfold outlet_child, bind, ret, call_guard. simpl.
  destruct (truthy (redirectTo r)); simpl; [by rewrite app_nil_r|].
  destruct (canEnter r) as [g|]; simpl.
  - destruct (g _props (world s)) as [v w]; simpl.
    by destruct (truthy v).
  - by rewrite app_nil_r.
Qed.

Lemma map_from_calls ph _props l :
  forall index s,
    calls (map_from (child ph _props) index l s).2
    = calls s ++ guard_calls _props index l.
Proof.
  induction l as [|r l IH]; intros index s; simpl.
  - by rewrite app_nil_r.
  - unfold bind, ret.
    pose proof (outlet_child_calls ph _props r index s) as Hc.
    run_step (child ph _props r index s).
    specialize (IH (S index) s0).
    run_step (map_from (child ph _props) (S index) l s0).
    rewrite IH, Hc. simpl. by rewrite app_nil_r, app_assoc.
Qed.

(** Which invocations are recorded: exactly those of the guarded routes
    whose [redirectTo] is falsy, each with the rest props. *)
Lemma elem_of_guard_calls _props l :
  forall index j p,
    (j, p) ∈ guard_calls _props index l <->
    p = _props /\ index <= j /\
    exists r g, l !! (j - index) = Some r /\
                truthy (redirectTo r) = false /\ canEnter r = Some g.
Proof.
  induction l as [|r l IH]; intros index j p; simpl.
  - split; [by intros ?%elem_of_nil | by intros (_ & _ & ? & ? & ? & _)].
  - rewrite elem_of_app, IH. split.
    + intros [H|(-> & Hle & r' & g & Hl & Hr & Hg)].
      * destruct (truthy (redirectTo r)) eqn:Hr; [by apply elem_of_nil in H|].
        destruct (canEnter r) as [g|] eqn:Hg; [|by apply elem_of_nil in H].
        apply list_elem_of_singleton in H as [= -> ->].
        split; [done|]. split; [done|]. exists r, g.
        by rewrite Nat.sub_diag.
      * split; [done|]. split; [lia|]. exists r', g.
        replace (j - index) with (S (j - S index)) by lia. done.
    + intros (-> & Hle & r' & g & Hl & Hr & Hg).
      destruct (decide (j = index)) as [->|Hne].
      * left. rewrite Nat.sub_diag in Hl. simpl in Hl. injection Hl as <-.
        rewrite Hr, Hg. by apply list_elem_of_singleton.
      * right. split; [done|]. split; [lia|]. exists r', g.
        replace (j - index) with (S (j - S index)) in Hl by lia. done.
Qed.

Lemma map_from_app {A B} (f : A -> nat -> M (W:=W) B) xs ys :
  forall index s,
    map_from f index (xs ++ ys) s
    = (let '(a, s1) := map_from f index xs s in
       let '(b, s2) := map_from f (index + length xs) ys s1 in
       (a ++ b, s2)).
Proof.
  induction xs as [|x xs IH]; intros index s; simpl; unfold bind, ret.
  - rewrite Nat.add_0_r. by destruct (map_from f index ys s).
  - destruct (f x index s) as [y s0].
    rewrite IH, <- Nat.add_succ_comm. simpl.
    destruct (map_from f (S index) xs s0) as [a s1].
    by destruct (map_from f (S (index + length xs)) ys s1).
Qed.

Lemma RouterOutlet_unfold ps s :
  RouterOutlet React_Suspense ps s
  = (Switch (map_from (child (placeholder_of ps) (rest_props ps))
                      0 (props_routes ps) s).1,
     (map_from (child (placeholder_of ps) (rest_props ps))
               0 (props_routes ps) s).2).
Proof.
  unfold RouterOutlet, bind, ret.
  by destruct (map_from _ 0 (props_routes ps) s).
Qed.

(** Child [i] of the [<Switch>] is the map callback run on route [i]. *)
Lemma RouterOutlet_child ps s i r :
  props_routes ps !! i = Some r ->
  exists children,
    (RouterOutlet React_Suspense ps s).1 = Switch children /\
    length children = length (props_routes ps) /\
    children !! i
    = Some (child (placeholder_of ps) (rest_props ps) r i
                  (state_before React_Suspense ps i s)).1.
Proof.
  intros Hr. rewrite RouterOutlet_unfold. simpl. eexists. split; [done|].
  split; [apply map_from_length|].
  by rewrite (map_from_lookup _ _ 0 s i r Hr).
Qed.

Lemma added_calls_eq ps s :
  added_calls React_Suspense ps s
  = guard_calls (rest_props ps) 0 (props_routes ps).
Proof.
  unfold added_calls. rewrite RouterOutlet_unfold. simpl.
  rewrite map_from_calls. by rewrite drop_app_length.
Qed.

Lemma state_before_succ ps s i r :
  props_routes ps !! i = Some r ->
  state_before React_Suspense ps (S i) s
  = (child (placeholder_of ps) (rest_props ps) r i
           (state_before React_Suspense ps i s)).2.
Proof.
  intros Hr. unfold state_before.
  rewrite (take_S_r _ _ _ Hr), map_from_app. simpl.
  destruct (map_from _ 0 (take i (props_routes ps)) s) as [a s1] eqn:E.
  simpl. unfold bind, ret.
  rewrite length_take_le by (apply Nat.lt_le_incl, lookup_lt_is_Some; eauto).
  by destruct (child _ _ r i s1).
Qed.

Lemma render_rendered_type r ph props :
  rendered_type (render React_Suspense r ph props) = Some (component r).
Proof. unfold render. by destruct (truthy React_Suspense). Qed.

Lemma redirect_child ps s i r :
  props_routes ps !! i = Some r ->
  truthy (redirectTo r) = true ->
  exists children,
    (RouterOutlet React_Suspense ps s).1 = Switch children /\
    children !! i
    = Some (Redirect i (path r) (exact r) (strict r)
                     (redirectTo r) (push r)).
Proof.
  intros Hr Hred.
  destruct (RouterOutlet_child ps s i r Hr) as (children & Hout & _ & Hi).
  exists children. split; [done|]. rewrite Hi.
  unfold outlet_child. by rewrite Hred.
Qed.

Lemma child_pure ph _props r index s1 s2 :
  (forall g, canEnter r = Some g -> pure_guard g) ->
  (child ph _props r index s1).1 = (child ph _props r index s2).1 /\
  world (child ph _props r index s1).2 = world s1.
Proof.
  intros Hpure. unfold outlet_child, bind, ret, call_guard.
  destruct (truthy (redirectTo r)); [done|].
  destruct (canEnter r) as [g|]; [|done].
  destruct (Hpure g eq_refl) as [f Hf]. rewrite !Hf. simpl.
  by destruct (truthy (f _props)).
Qed.

Lemma map_from_pure ph _props l :
  pure_guards l ->
  forall index s1 s2,
    (map_from (child ph _props) index l s1).1
    = (map_from (child ph _props) index l s2).1 /\
    world (map_from (child ph _props) index l s1).2 = world s1.
Proof.
  induction 1 as [|r l Hr _ IH]; intros index s1 s2; [done|].
  simpl. unfold bind, ret.
  destruct (child_pure ph _props r index s1 s2 Hr) as [Hy Hw].
  destruct (child ph _props r index s1) as [y1 t1].
  destruct (child ph _props r index s2) as [y2 t2].
  simpl in Hy, Hw. subst y2.
  destruct (IH (S index) t1 t2) as [Hys Hws].
  destruct (map_from _ (S index) l t1) as [ys1 u1].
  destruct (map_from _ (S index) l t2) as [ys2 u2].
  simpl in *. split; congruence.
Qed.

(** *** Guarded routes *)

(** C5.  A route with a [canEnter] guard and no [redirectTo] becomes a
    [<Route>] rendering its component exactly when the guard, called with the
    outlet's rest props, returns a truthy value (for a guard returning a
    boolean: [true]); otherwise it becomes a [<Redirect>] from the route's
    [path] to its [fallback]. *)
Theorem guarded_route_activation ps s i r g :
  props_routes ps !! i = Some r ->
  canEnter r = Some g ->
  redirectTo r = JUndefined ->
  exists children,
    (RouterOutlet React_Suspense ps s).1 = Switch children /\
    children !! i
    = Some (if truthy (g (rest_props ps)
                         (world (state_before React_Suspense ps i s))).1
            then Route i (path r) (exact r) (strict r)
                       (render React_Suspense r (placeholder_of ps))
            else Redirect i (path r) (exact r) (strict r)
                          (fallback r) (push r)) /\
    forall props,
      rendered_type (render React_Suspense r (placeholder_of ps) props)
      = Some (component r).
Proof.
  intros Hr Hg Hred.
  destruct (RouterOutlet_child ps s i r Hr) as (children & Hout & _ & Hi).
  exists children. split; [done|]. split; [|apply render_rendered_type].
  rewrite Hi. f_equal.
  unfold outlet_child, bind, ret, call_guard. rewrite Hred, Hg. simpl.
  destruct (g _ _) as [v w]. simpl. by destruct (truthy v).
Qed.

(** *** Redirections *)

(** C6, as amended.  A route whose [redirectTo] is truthy becomes a
    [<Redirect>] from its [path] to [redirectTo] carrying its [exact],
    [strict] and [push]; no [<Route>] is built for it. *)
Theorem redirect_route ps s i r :
  props_routes ps !! i = Some r ->
  truthy (redirectTo r) = true ->
  exists children,
    (RouterOutlet React_Suspense ps s).1 = Switch children /\
    children !! i
    = Some (Redirect i (path r) (exact r) (strict r)
                     (redirectTo r) (push r)).
Proof. apply redirect_child. Qed.

(** C8, as amended.  When a route has a truthy [redirectTo] and a [canEnter]
    guard, evaluating the outlet records no invocation for that route, leaves
    the machine as it was when the route was reached, and redirects to
    [redirectTo] whatever the guard would have answered. *)
Theorem redirect_skips_guard ps s i r g :
  props_routes ps !! i = Some r ->
  truthy (redirectTo r) = true ->
  canEnter r = Some g ->
  (forall p, (i, p) ∉ added_calls React_Suspense ps s) /\
  state_before React_Suspense ps (S i) s
  = state_before React_Suspense ps i s /\
  exists children,
    (RouterOutlet React_Suspense ps s).1 = Switch children /\
    children !! i
    = Some (Redirect i (path r) (exact r) (strict r)
                     (redirectTo r) (push r)).
Proof.
  intros Hr Hred Hg. split; [|split].
  - intros p. rewrite added_calls_eq, elem_of_guard_calls.
    intros (_ & _ & r' & g' & Hr' & Hred' & _).
    rewrite Nat.sub_0_r, Hr in Hr'. injection Hr' as <-. congruence.
  - rewrite (state_before_succ ps s i r Hr).
    unfold outlet_child. by rewrite Hred.
  - by apply redirect_child.
Qed.

(** *** The Suspense boundary *)

(** C10, as amended.  A component route (falsy [redirectTo], guard absent or
    passing) becomes a [<Route>] whose render prop, on a React that exports
    [Suspense], wraps the component in a [<Suspense>] whose fallback is the
    [placeholder] prop when it is provided (truthy, as every function or
    object is) and [<div />] otherwise; on a React without [Suspense] it
    renders the component bare. *)
Theorem component_route_suspense ps s i r :
  props_routes ps !! i = Some r ->
  truthy (redirectTo r) = false ->
  admits r (rest_props ps) (world (state_before React_Suspense ps i s)) = true ->
  exists children,
    (RouterOutlet React_Suspense ps s).1 = Switch children /\
    children !! i
    = Some (Route i (path r) (exact r) (strict r)
                  (render React_Suspense r (placeholder_of ps))) /\
    (truthy React_Suspense = true ->
     forall props,
       render React_Suspense r (placeholder_of ps) props
       = Suspense (if truthy (placeholder_of ps)
                   then Value (placeholder_of ps) else Host "div")
                  (Component (component r)
                             (<["routes" := routes r]> props))) /\
    (truthy React_Suspense = false ->
     forall props,
       render React_Suspense r (placeholder_of ps) props
       = Component (component r) (<["routes" := routes r]> props)) /\
    (is_func_or_object (placeholder_of ps) = true ->
     truthy (placeholder_of ps) = true) /\
    (own ps !! "placeholder" = None -> truthy (placeholder_of ps) = false).
Proof.
  intros Hr Hred Hadm.
  destruct (RouterOutlet_child ps s i r Hr) as (children & Hout & _ & Hi).
  exists children. split; [done|]. split; [|split; [|split; [|split]]].
  - rewrite Hi. f_equal.
    unfold outlet_child, bind, ret, call_guard. rewrite Hred.
    unfold admits in Hadm. destruct (canEnter r) as [g|]; [|done].
    destruct (g _ _) as [v w]. simpl in *. by rewrite Hadm.
  - intros HS props. unfold render. by rewrite HS.
  - intros HS props. unfold render. by rewrite HS.
  - apply func_or_object_truthy.
  - intros Hnone. unfold placeholder_of. by rewrite Hnone.
Qed.

(** *** Purity *)

(** C7, as amended.  When every guard in the route table is a function of
    its argument alone, the tree the outlet builds does not depend on the
    consumer's state, and evaluation leaves that state as it found it. *)
Theorem outlet_pure ps s1 s2 :
  pure_guards (props_routes ps) ->
  (RouterOutlet React_Suspense ps s1).1
  = (RouterOutlet React_Suspense ps s2).1 /\
  world (RouterOutlet React_Suspense ps s1).2 = world s1.
Proof.
  intros Hpure. rewrite !RouterOutlet_unfold. simpl.
  destruct (map_from_pure (placeholder_of ps) (rest_props ps)
              (props_routes ps) Hpure 0 s1 s2) as [-> ->].
  done.
Qed.

End Facts.

(** *** The README's route table, evaluated *)

Example readme_signed_out :
  (RouterOutlet React16 (readme_props false) start).1
  = Switch
      [Route 0 (JStr "/login") JUndefined JUndefined
             (render (W:=unit) React16 login_route (JFun "Spinner"));
       Redirect 1 (JStr "/default") JUndefined JUndefined
                (JStr "/login") JUndefined;
       Redirect 2 (JStr "/") (JBool true) JUndefined
                (JStr "/default") JUndefined;
       Route 3 JUndefined JUndefined JUndefined
             (render (W:=unit) React16 not_found (JFun "Spinner"))].
Proof. reflexivity. Qed.

Example readme_signed_out_calls :
  calls (RouterOutlet React16 (readme_props false) start).2
  = [(1, {["authenticated" := JBool false]})].
Proof. vm_compute. reflexivity. Qed.

(** *** The theorems at the README's routes *)

Lemma guarded_route_activation_signed_in :
  exists children,
    (RouterOutlet React16 (readme_props true) start).1 = Switch children /\
    children !! 1
    = Some (Route 1 (JStr "/default") JUndefined JUndefined
                  (render (W:=unit) React16 default_route (JFun "Spinner"))) /\
    forall props,
      rendered_type
        (render (W:=unit) React16 default_route (JFun "Spinner") props)
      = Some (JFun "DefaultPage").
Proof.
  exact (guarded_route_activation React16 (readme_props true) start 1
           default_route isAuthenticated eq_refl eq_refl eq_refl).
Defined.

Lemma redirect_route_root :
  exists children,
    (RouterOutlet React16 (readme_props false) start).1 = Switch children /\
    children !! 2
    = Some (Redirect 2 (JStr "/") (JBool true) JUndefined
                     (JStr "/default") JUndefined).
Proof.
  exact (redirect_route React16 (readme_props false) start 2 root_route
           eq_refl eq_refl).
Defined.

Lemma redirect_skips_guard_admin :
  (forall p, (0, p) ∉ added_calls React16 (only guarded_redirect) start) /\
  state_before React16 (only guarded_redirect) 1 start
  = state_before React16 (only guarded_redirect) 0 start /\
  exists children,
    (RouterOutlet React16 (only guarded_redirect) start).1
    = Switch children /\
    children !! 0
    = Some (Redirect 0 (JStr "/admin") JUndefined JUndefined
                     (JStr "/default") (JBool true)).
Proof.
  exact (redirect_skips_guard React16 (only guarded_redirect) start 0
           guarded_redirect isAuthenticated eq_refl eq_refl eq_refl).
Defined.

Lemma component_route_suspense_default :
  exists children,
    (RouterOutlet React16 (readme_props true) start).1 = Switch children /\
    children !! 1
    = Some (Route 1 (JStr "/default") JUndefined JUndefined
                  (render (W:=unit) React16 default_route (JFun "Spinner"))) /\
    forall props,
      render (W:=unit) React16 default_route (JFun "Spinner") props
      = Suspense (Value (JFun "Spinner"))
                 (Component (JFun "DefaultPage")
                            (<["routes" := JUndefined]> props)).
Proof.
  destruct (component_route_suspense React16 (readme_props true) start 1
              default_route eq_refl eq_refl eq_refl)
    as (children & Hout & Hchild & Hwrap & _).
  exists children. split; [exact Hout|]. split; [exact Hchild|].
  exact (Hwrap eq_refl).
Defined.

Lemma readme_guards_pure : pure_guards (W:=bool) (props_routes (readme_props true)).
Proof.
  repeat constructor; intros g [= <-].
  by exists (fun props => default JUndefined (props !! "authenticated")).
Defined.

Lemma outlet_pure_readme :
  (RouterOutlet React16 (readme_props true) (flag_is true)).1
  = (RouterOutlet React16 (readme_props true) (flag_is false)).1 /\
  world (RouterOutlet React16 (readme_props true) (flag_is true)).2 = true.
Proof.
  exact (outlet_pure React16 (readme_props true) (flag_is true)
           (flag_is false) readme_guards_pure).
Defined.

(** *** Where the statements stop holding *)

(** C6 as stated: [redirectTo: ''] is specified, yet the route is rendered as
    a component route and no redirection is produced. *)
Lemma redirect_route_empty_string :
  redirectTo (W:=unit) blank_redirect <> JUndefined /\
  (RouterOutlet React16 (only blank_redirect) start).1
  = Switch [Route 0 (JStr "/old") JUndefined JUndefined
                  (render (W:=unit) React16 blank_redirect JUndefined)] /\
  ~ exists children,
      (RouterOutlet React16 (only blank_redirect) start).1 = Switch children /\
      children !! 0
      = Some (Redirect 0 (JStr "/old") JUndefined JUndefined
                       (JStr "") JUndefined).
Proof.
  split; [done|]. split; [reflexivity|].
  intros (children & [= <-] & Hc). discriminate Hc.
Qed.

(** C8 as stated: with [redirectTo: ''] and a guard both specified, the
    guard is invoked. *)
Lemma redirect_guard_empty_string :
  redirectTo (W:=unit) blank_redirect_guarded <> JUndefined /\
  canEnter (W:=unit) blank_redirect_guarded = Some isAuthenticated /\
  added_calls React16 (only blank_redirect_guarded) start = [(0, ∅)] /\
  (RouterOutlet React16 (only blank_redirect_guarded) start).1
  = Switch [Redirect 0 (JStr "/old") JUndefined JUndefined
                     (JStr "/login") JUndefined].
Proof. split; [done|]. split; [done|]. split; reflexivity. Qed.

(** C7 as stated: with a guard that reads and writes the consumer's state,
    two evaluations in a row build different trees, and evaluation changes
    that state. *)
Lemma outlet_toggling_guard :
  let ps := {| props_routes := [toggled_route]; own := ∅ |} in
  let first := RouterOutlet React16 ps (flag_is true) in
  let second := RouterOutlet React16 ps first.2 in
  first.1 <> second.1 /\ world first.2 <> world (flag_is true).
Proof. split; [intros [=]|done]. Qed.

(** C10 as stated: on a React without [Suspense] the component is rendered
    bare. *)
Lemma component_route_without_suspense :
  (RouterOutlet React15 (only login_route) start).1
  = Switch [Route 0 (JStr "/login") JUndefined JUndefined
                  (render (W:=unit) React15 login_route JUndefined)] /\
  forall props,
    render (W:=unit) React15 login_route JUndefined props
    = Component (JFun "LoginPage") (<["routes" := JUndefined]> props) /\
    forall fb child,
      render (W:=unit) React15 login_route JUndefined props
      <> Suspense fb child.
Proof. split; [reflexivity|]. intros props. split; [reflexivity|done]. Qed.

(** *** Further facts about the outlet *)

Section Shape.

Context {W : Type} (React_Suspense : jsval).

Implicit Types (r : route W) (s : machine W) (ps : outlet_props W).
Implicit Types (l : list (route W)).

Local Abbreviation child := (outlet_child React_Suspense).

Lemma outlet_children_eq ps s :
  outlet_children React_Suspense ps s
  = (map_from (child (placeholder_of ps) (rest_props ps))
              0 (props_routes ps) s).1.
Proof. unfold outlet_children. by rewrite RouterOutlet_unfold. Qed.

Lemma outlet_children_lookup ps s i r :
  props_routes ps !! i = Some r ->
  outlet_children React_Suspense ps s !! i
  = Some (child (placeholder_of ps) (rest_props ps) r i
                (state_before React_Suspense ps i s)).1.
Proof.
  intros Hr. rewrite outlet_children_eq.
  by rewrite (map_from_lookup _ _ 0 s i r Hr).
Qed.

(** The three branches of the map callback, side by side. *)
Lemma outlet_child_cases ph _props r index s :
  (child ph _props r index s).1
  = if truthy (redirectTo r) then
      Redirect index (path r) (exact r) (strict r) (redirectTo r) (push r)
    else if admits r _props (world s) then
      Route index (path r) (exact r) (strict r)
            (render React_Suspense r ph)
    else
      Redirect index (path r) (exact r) (strict r) (fallback r) (push r).
Proof.
  unfold outlet_child, admits, bind, ret, call_guard.
  destruct (truthy (redirectTo r)); [done|].
  destruct (canEnter r) as [g|]; [|done].
  destruct (g _props (world s)) as [v w]. simpl. by destruct (truthy v).
Qed.

Lemma outlet_child_world ph _props r index s :
  world (child ph _props r index s).2 = guard_effect _props (world s) r.
Proof.
  unfold outlet_child, guard_effect, bind, ret, call_guard.
  destruct (truthy (redirectTo r)); [done|].
  destruct (canEnter r) as [g|]; [|done].
  destruct (g _props (world s)) as [v w]. simpl. by destruct (truthy v).
Qed.

Lemma map_from_world ph _props l :
  forall index s,
    world (map_from (child ph _props) index l s).2
    = foldl (guard_effect _props) (world s) l.
Proof.
  induction l as [|r l IH]; intros index s; [done|].
  simpl. unfold bind, ret.
  pose proof (outlet_child_world ph _props r index s) as Hw.
  destruct (child ph _props r index s) as [y s0]. simpl in Hw.
  specialize (IH (S index) s0).
  destruct (map_from _ (S index) l s0) as [ys s1]. simpl in *.
  by rewrite IH, Hw.
Qed.

(** X1.  The outlet returns a [<Switch>] with one child per route, in the
    order of the table; child [i] is a [<Redirect>] or a [<Route>] whose
    [key] is [i] and whose [from]/[path], [exact] and [strict] are those of
    route [i], whichever branch built it. *)
Theorem outlet_shape ps s :
  (RouterOutlet React_Suspense ps s).1
  = Switch (outlet_children React_Suspense ps s) /\
  length (outlet_children React_Suspense ps s) = length (props_routes ps) /\
  forall i c,
    outlet_children React_Suspense ps s !! i = Some c ->
    exists r,
      props_routes ps !! i = Some r /\
      routing_fields c = Some (i, path r, exact r, strict r).
Proof.
  split; [by rewrite outlet_children_eq, RouterOutlet_unfold|].
  assert (length (outlet_children React_Suspense ps s)
          = length (props_routes ps)) as Hlen.
  { rewrite outlet_children_eq. apply map_from_length. }
  split; [done|]. intros i c Hc.
  destruct (lookup_lt_is_Some_2 (props_routes ps) i) as [r Hr].
  { rewrite <- Hlen. apply lookup_lt_is_Some. eauto. }
  exists r. split; [done|].
  rewrite (outlet_children_lookup ps s i r Hr) in Hc. injection Hc as <-.
  rewrite outlet_child_cases.
  destruct (truthy (redirectTo r)); [done|]. by destruct (admits _ _ _).
Qed.

(** X2.  Child [i] is a [<Route>] exactly when route [i] has a falsy
    [redirectTo] and its guard is absent or answers truthy; in every other
    case it is a [<Redirect>] carrying the route's [push], to [redirectTo]
    when that is truthy and to [fallback] otherwise. *)
Theorem child_classification ps s i r :
  props_routes ps !! i = Some r ->
  exists c,
    outlet_children React_Suspense ps s !! i = Some c /\
    (is_Route c = true <->
     truthy (redirectTo r) = false /\
     admits r (rest_props ps)
            (world (state_before React_Suspense ps i s)) = true) /\
    (is_Route c = false ->
     redirect_target c
     = Some (if truthy (redirectTo r) then redirectTo r else fallback r,
             push r)).
Proof.
  intros Hr. eexists. split; [by apply outlet_children_lookup|].
  rewrite outlet_child_cases.
  destruct (truthy (redirectTo r)); simpl.
  - split; [|done]. split; [done|]. by intros [? _].
  - destruct (admits _ _ _); simpl.
    + split; [|done]. done.
    + split; [|done]. split; [done|]. by intros [_ ?].
Qed.

Lemma guard_calls_ascending _props l :
  forall index j k i1 p1 i2 p2,
    guard_calls _props index l !! j = Some (i1, p1) ->
    guard_calls _props index l !! k = Some (i2, p2) ->
    j < k -> i1 < i2.
Proof.
  induction l as [|r l IH]; intros index j k i1 p1 i2 p2; simpl; [done|].
  destruct (truthy (redirectTo r)); simpl; [apply IH|].
  destruct (canEnter r) as [g|]; simpl; [|apply IH].
  destruct j as [|j]; destruct k as [|k]; simpl; try lia.
  - intros [= <- <-] Hk _.
    assert ((i2, p2) ∈ guard_calls _props (S index) l) as Hin.
    { apply list_elem_of_lookup. eauto. }
    apply elem_of_guard_calls in Hin as (_ & Hle & _). lia.
  - intros Hj Hk Hlt. apply (IH (S index) j k i1 p1 i2 p2 Hj Hk). lia.
Qed.

(** X3.  The guard invocations of one evaluation are recorded with strictly
    increasing route indices: guards run in the order of the table, and no
    route's guard runs twice. *)
Theorem guards_run_in_order ps s j k i1 p1 i2 p2 :
  added_calls React_Suspense ps s !! j = Some (i1, p1) ->
  added_calls React_Suspense ps s !! k = Some (i2, p2) ->
  j < k ->
  i1 < i2.
Proof. rewrite added_calls_eq. apply guard_calls_ascending. Qed.

(** X4.  The consumer's state after an evaluation is the state before it,
    passed through the guards that are reached, in the order of the table: a
    refusing guard does not stop the guards after it, and the guard of route
    [i] sees what the guards before it left. *)
Theorem guards_thread_state ps s :
  world (RouterOutlet React_Suspense ps s).2
  = foldl (guard_effect (rest_props ps)) (world s) (props_routes ps) /\
  forall i,
    world (state_before React_Suspense ps i s)
    = foldl (guard_effect (rest_props ps)) (world s)
            (take i (props_routes ps)).
Proof.
  split.
  - rewrite RouterOutlet_unfold. simpl. apply map_from_world.
  - intros i. unfold state_before. apply map_from_world.
Qed.

(** X5.  Appending routes to a table changes nothing of what is built for
    the routes already in it: the first children are the same elements, and
    the machine reaches the appended routes in the state the shorter table
    ends in. *)
Theorem appended_routes_keep_prefix ps s l1 l2 :
  take (length l1)
       (outlet_children React_Suspense (with_routes (l1 ++ l2) ps) s)
  = outlet_children React_Suspense (with_routes l1 ps) s /\
  state_before React_Suspense (with_routes (l1 ++ l2) ps) (length l1) s
  = (RouterOutlet React_Suspense (with_routes l1 ps) s).2.
Proof.
  split.
  - rewrite !outlet_children_eq. simpl.
    change (placeholder_of (with_routes (l1 ++ l2) ps))
      with (placeholder_of ps).
    change (placeholder_of (with_routes l1 ps)) with (placeholder_of ps).
    change (rest_props (with_routes (l1 ++ l2) ps)) with (rest_props ps).
    change (rest_props (with_routes l1 ps)) with (rest_props ps).
    rewrite map_from_app.
    pose proof (map_from_length
                  (child (placeholder_of ps) (rest_props ps)) l1 0 s) as Hlen.
    destruct (map_from _ 0 l1 s) as [a s1]. simpl in *.
    destruct (map_from _ (length l1) l2 s1) as [b s2]. simpl.
    rewrite <- Hlen. apply take_app_length.
  - unfold state_before. rewrite RouterOutlet_unfold. simpl.
    by rewrite take_app_length.
Qed.

Lemma map_from_unguarded ph _props l :
  forallb unguarded l = true ->
  forall index s,
    (map_from (child ph _props) index l s).2 = s /\
    forall _props' s',
      (map_from (child ph _props') index l s').1
      = (map_from (child ph _props) index l s).1.
Proof.
  induction l as [|r l IH]; intros Hl index s; [done|].
  simpl in Hl. apply andb_true_iff in Hl as [Hr Hl].
  specialize (IH Hl (S index)).
  assert (forall p t, child ph p r index t
                      = ((child ph _props r index s).1, t)) as Hc.
  { intros p t. unfold outlet_child, unguarded, bind, ret in *.
    destruct (truthy (redirectTo r)); [done|].
    by destruct (canEnter r). }
  simpl. unfold bind, ret. split.
  - rewrite (Hc _props s). destruct (IH s) as [Hs _].
    destruct (map_from _ (S index) l s) as [ys s1]. simpl in *. done.
  - intros _props' s'. rewrite (Hc _props' s'), (Hc _props s).
    destruct (IH s) as [_ Hys]. specialize (Hys _props' s').
    destruct (map_from (child ph _props') (S index) l s') as [ys' t'].
    destruct (map_from (child ph _props) (S index) l s) as [ys t].
    simpl in *. by rewrite Hys.
Qed.

(** X6.  When every route is a redirection or has no guard, evaluation
    leaves the machine untouched (no guard call, no state change) and the
    tree depends on the props only through [routes] and [placeholder]. *)
Theorem unguarded_outlet_is_static ps s :
  forallb unguarded (props_routes ps) = true ->
  (RouterOutlet React_Suspense ps s).2 = s /\
  forall ps' s',
    props_routes ps' = props_routes ps ->
    placeholder_of ps' = placeholder_of ps ->
    (RouterOutlet React_Suspense ps' s').1
    = (RouterOutlet React_Suspense ps s).1.
Proof.
  intros Hl.
  destruct (map_from_unguarded (placeholder_of ps) (rest_props ps)
              (props_routes ps) Hl 0 s) as [Hs Hys].
  split.
  - by rewrite RouterOutlet_unfold.
  - intros ps' s' Hroutes Hph. rewrite !RouterOutlet_unfold. simpl.
    by rewrite Hroutes, Hph, (Hys (rest_props ps') s').
Qed.

(** *** Props that pass the declared prop types *)

Lemma oneOfType_string_object v :
  PropTypes_oneOfType [PropTypes_string; PropTypes_object] v = true ->
  truthy v = false <-> v = JUndefined \/ v = JNull \/ v = JStr "".
Proof.
  destruct v as [| |b|z| |[|c str]|f|fs]; simpl; intros Hok;
    try discriminate Hok;
    (split; [intros ?; try discriminate; auto
            |intros [?|[?|?]]; try discriminate; auto]).
Qed.

Lemma propTypes_route ps i r :
  propTypes ps = true -> props_routes ps !! i = Some r ->
  routePropType r = true.
Proof.
  intros [Hrs _]%andb_true_iff Hr.
  rewrite forallb_forall in Hrs. apply Hrs.
  apply list_elem_of_In, list_elem_of_lookup. eauto.
Qed.

(** X8.  In props that pass [RouterOutlet.propTypes], a route's
    [redirectTo] is falsy only when it is [undefined], [null] or the empty
    string; with any other value the route becomes the [<Redirect>] to it. *)
Theorem typed_redirect ps s i r :
  propTypes ps = true ->
  props_routes ps !! i = Some r ->
  (truthy (redirectTo r) = false <->
   redirectTo r = JUndefined \/ redirectTo r = JNull
   \/ redirectTo r = JStr "") /\
  (redirectTo r <> JUndefined -> redirectTo r <> JNull ->
   redirectTo r <> JStr "" ->
   outlet_children React_Suspense ps s !! i
   = Some (Redirect i (path r) (exact r) (strict r)
                    (redirectTo r) (push r))).
Proof.
  intros Hok Hr.
  pose proof (propTypes_route ps i r Hok Hr) as Hroute.
  unfold routePropType in Hroute.
  repeat (apply andb_true_iff in Hroute as [Hroute ?]).
  assert (truthy (redirectTo r) = false <->
          redirectTo r = JUndefined \/ redirectTo r = JNull
          \/ redirectTo r = JStr "") as Hiff
    by by apply oneOfType_string_object.
  split; [done|]. intros Hu Hn He.
  rewrite (outlet_children_lookup ps s i r Hr), outlet_child_cases.
  destruct (truthy (redirectTo r)); [done|].
  destruct Hiff as [Hiff _]. destruct (Hiff eq_refl) as [?|[?|?]]; done.
Qed.

(** X9.  In props that pass [RouterOutlet.propTypes], on a React that
    exports [Suspense], the boundary around every routed component falls
    back to the [placeholder] prop whenever one is given (neither
    [undefined] nor [null]) and to [<div />] otherwise. *)
Theorem typed_placeholder ps r props :
  propTypes ps = true ->
  truthy React_Suspense = true ->
  suspense_fallback (render React_Suspense r (placeholder_of ps) props)
  = Some (if is_nullish (placeholder_of ps) then Host "div"
          else Value (placeholder_of ps)).
Proof.
  intros [_ Hph]%andb_true_iff HS. unfold render. rewrite HS. simpl.
  by destruct (placeholder_of ps).
Qed.

End Shape.

(** The further facts at the README's routes. *)

Lemma child_classification_default :
  exists c,
    outlet_children React16 (readme_props false) start !! 1 = Some c /\
    is_Route c = false /\
    redirect_target c = Some (JStr "/login", JUndefined).
Proof.
  destruct (child_classification React16 (readme_props false) start 1
              default_route eq_refl) as (c & Hc & Hroute & Htarget).
  exists c. split; [exact Hc|].
  assert (is_Route c = false) as Hno.
  { destruct (is_Route c); [|reflexivity].
    destruct (proj1 Hroute eq_refl) as [_ Hadm]. discriminate Hadm. }
  split; [exact Hno|]. exact (Htarget Hno).
Defined.

Lemma guards_run_in_order_two :
  0 < 1.
Proof.
  exact (guards_run_in_order React16
           {| props_routes := [default_route; default_route]; own := ∅ |}
           start 0 1 0 ∅ 1 ∅ eq_refl eq_refl (le_n 1)).
Defined.

Lemma unguarded_outlet_is_static_blank :
  (RouterOutlet React16 (only blank_redirect) start).2 = start.
Proof.
  exact (proj1 (unguarded_outlet_is_static React16 (only blank_redirect)
                  start eq_refl)).
Defined.

Lemma typed_redirect_root :
  outlet_children React16 (readme_props false) start !! 2
  = Some (Redirect 2 (JStr "/") (JBool true) JUndefined
                   (JStr "/default") JUndefined).
Proof.
  refine (proj2 (typed_redirect React16 (readme_props false) start 2
                   root_route eq_refl eq_refl) _ _ _); discriminate.
Defined.

Lemma typed_placeholder_spinner :
  suspense_fallback
    (render (W:=unit) React16 login_route
            (placeholder_of (readme_props (W:=unit) true)) ∅)
  = Some (Value (JFun "Spinner")).
Proof.
  exact (typed_placeholder React16 (readme_props true) login_route ∅
           eq_refl eq_refl).
Defined.

End RoutingSpec.

(** ** Facts about the outlet with guards that throw or write *)

Module RoutingFxSpec.
Import Js Routing RoutingFx.

Section Facts.

Context {W : Type} (React_Suspense : jsval).

Implicit Types (r : route W) (s : machine W) (ps : outlet_props W).
Implicit Types (g : guard W) (l : list (route W)).

Local Abbreviation child := (outlet_child React_Suspense).

(** What the map callback does on a route whose guard is reached. *)
Lemma outlet_child_guarded ph r g index s :
  truthy (redirectTo r) = false ->
  canEnter r = Some g ->
  child ph r index s
  = let v := g (_props s) (world s) in
    let s' := {| world := world_after v; _props := props_after v;
                 calls := calls s ++ [(index, _props s)] |} in
    match result v with
    | Throws e => (inl e, s')
    | Returns x =>
        (inr (if truthy x
              then Route index (path r) (exact r) (strict r)
                         (render React_Suspense r ph)
              else Redirect index (path r) (exact r) (strict r)
                            (fallback r) (push r)), s')
    end.
Proof.
  intros Hred Hg. unfold outlet_child, bind, ret, call_guard.
  rewrite Hred, Hg. simpl.
  destruct (result (g (_props s) (world s))) as [x|e]; [|done].
  by destruct (truthy x).
Qed.

(** Evaluation only appends to the record, and a route whose guard is not
    reached leaves the machine alone. *)
Lemma outlet_child_appends ph r index s :
  exists more, calls (child ph r index s).2 = calls s ++ more.
Proof.
  unfold outlet_child, bind, ret, call_guard.
  destruct (truthy (redirectTo r)); [by exists []; rewrite app_nil_r|].
  destruct (canEnter r) as [g|]; [|by exists []; rewrite app_nil_r].
  exists [(index, _props s)].
  destruct (result (g (_props s) (world s))) as [x|e]; [|done].
  by destruct (truthy x).
Qed.

Lemma map_from_appends ph l :
  forall index s,
    exists more,
      calls (map_from (child ph) index l s).2 = calls s ++ more.
Proof.
  induction l as [|r l IH]; intros index s; simpl.
  - exists []. by rewrite app_nil_r.
  - unfold bind, ret.
    destruct (outlet_child_appends ph r index s) as [m1 H1].
    destruct (child ph r index s) as [[e|y] s0]; simpl in *; [by exists m1|].
    destruct (IH (S index) s0) as [m2 H2].
    destruct (map_from (child ph) (S index) l s0) as [[e|ys] s1];
      simpl in *; exists (m1 ++ m2); by rewrite H2, H1, app_assoc.
Qed.

(** A table that is mapped to the end was mapped up to each of its routes:
    the routes before [i], then route [i], then the routes after it. *)
Lemma map_from_returns {A B} (f : A -> nat -> M (W:=W) B) (xs : list A) :
  forall index s i x ys s',
    xs !! i = Some x ->
    map_from f index xs s = (inr ys, s') ->
    exists a y b s1 s2,
      map_from f index (take i xs) s = (inr a, s1) /\
      f x (index + i) s1 = (inr y, s2) /\
      map_from f index (take (S i) xs) s = (inr (a ++ [y]), s2) /\
      map_from f (S (index + i)) (drop (S i) xs) s2 = (inr b, s').
Proof.
  induction xs as [|x0 xs IH]; intros index s i x ys s' Hx Hall; [done|].
  simpl in Hall. unfold bind, ret in Hall.
  destruct (f x0 index s) as [[e|y0] s0] eqn:E0; [done|].
  destruct (map_from f (S index) xs s0) as [[e|ys0] t] eqn:E1; [done|].
  injection Hall as <- <-.
  destruct i as [|i]; simpl in Hx.
  - injection Hx as <-. exists [], y0, ys0, s, s0.
    rewrite Nat.add_0_r. simpl. unfold bind, ret. by rewrite E0.
  - destruct (IH (S index) s0 i x ys0 t Hx E1)
      as (a & y & b & s1 & s2 & Ha & Hy & Hay & Hb).
    exists (y0 :: a), y, b, s1, s2.
    rewrite <- Nat.add_succ_comm. simpl. unfold bind, ret.
    by rewrite E0, Ha, Hay.
Qed.

Lemma outlet_child_props ph r index s :
  (forall g, canEnter r = Some g -> writes_nothing g) ->
  _props (child ph r index s).2 = _props s.
Proof.
  intros Hr. unfold outlet_child, bind, ret, call_guard.
  destruct (truthy (redirectTo r)); [done|].
  destruct (canEnter r) as [g|]; [|done].
  pose proof (Hr g eq_refl (_props s) (world s)) as Hg.
  destruct (result (g (_props s) (world s))) as [x|e]; [|done].
  by destruct (truthy x).
Qed.

Lemma map_from_props ph l :
  write_nothing l ->
  forall index s, _props (map_from (child ph) index l s).2 = _props s.
Proof.
  induction 1 as [|r l Hr _ IH]; intros index s; [done|].
  simpl. unfold bind, ret.
  pose proof (outlet_child_props ph r index s Hr) as H0.
  destruct (child ph r index s) as [[e|y] s0]; simpl in *; [done|].
  specialize (IH (S index) s0).
  destruct (map_from (child ph) (S index) l s0) as [[e|ys] s1];
    simpl in *; congruence.
Qed.

(** C9, as amended.  In an evaluation that returns a tree (no guard throws),
    the guard of every guarded route without [redirectTo] is invoked at its
    turn, whatever its [path]: it is applied to the contents of the rest
    object and to the consumer's state as the routes before it left them,
    what it leaves is what the next route finds, and the call is recorded.
    The rest object starts as the outlet's props without [routes] and
    [placeholder], every other property kept, and still holds exactly these
    when no earlier guard wrote to it; it is never the render props. *)
Theorem guards_invoked_unless_thrown ps w tree s' i r g :
  RouterOutlet React_Suspense ps w = (inr tree, s') ->
  props_routes ps !! i = Some r ->
  redirectTo r = JUndefined ->
  canEnter r = Some g ->
  let before := state_before React_Suspense ps i w in
  let after := state_before React_Suspense ps (S i) w in
  let v := g (_props before) (world before) in
  (exists x, result v = Returns x) /\
  world after = world_after v /\
  _props after = props_after v /\
  (i, _props before) ∈ calls s' /\
  _props (state_before React_Suspense ps 0 w) = rest_props ps /\
  rest_props ps !! "routes" = None /\
  rest_props ps !! "placeholder" = None /\
  (forall k, k <> "routes" -> k <> "placeholder" ->
             rest_props ps !! k = own ps !! k) /\
  (write_nothing (take i (props_routes ps)) ->
   _props before = rest_props ps).
Proof.
  intros Hout Hr Hred Hg before after v.
  unfold RouterOutlet, bind, ret in Hout.
  destruct (map_from (child (placeholder_of ps)) 0 (props_routes ps)
              (enter ps w)) as [[e|ys] t] eqn:Hall; [done|].
  injection Hout as _ <-.
  destruct (map_from_returns _ _ 0 _ i r ys t Hr Hall)
    as (a & y & b & s1 & s2 & Ha & Hy & Hay & Hb).
  assert (before = s1) as Hbefore by (unfold before, state_before; by rewrite Ha).
  assert (after = s2) as Hafter by (unfold after, state_before; by rewrite Hay).
  simpl in Hy.
  rewrite (outlet_child_guarded (placeholder_of ps) r g i s1) in Hy
    by (by rewrite ?Hred).
  fold before in Hbefore. subst v. rewrite Hbefore, Hafter. simpl in Hy.
  destruct (result (g (_props s1) (world s1))) as [x|e] eqn:Hres; [|done].
  injection Hy as _ <-. simpl.
  split; [by exists x|]. split; [done|]. split; [done|]. split.
  { destruct (map_from_appends (placeholder_of ps) (drop (S i) (props_routes ps))
                (S i) {| world := world_after (g (_props s1) (world s1));
                         _props := props_after (g (_props s1) (world s1));
                         calls := calls s1 ++ [(i, _props s1)] |})
      as [more Hmore].
    simpl in Hb. rewrite Hb in Hmore. simpl in Hmore. rewrite Hmore.
    apply elem_of_app. left. apply elem_of_app. right.
    apply list_elem_of_here. }
  split; [done|]. split.
  { unfold rest_props. rewrite lookup_delete_ne by done.
    apply lookup_delete_eq. }
  split; [apply lookup_delete_eq|]. split.
  { intros k H1 H2. unfold rest_props. by rewrite !lookup_delete_ne. }
  intros Hquiet. rewrite <- Hbefore. unfold before, state_before.
  by rewrite (map_from_props _ _ Hquiet).
Qed.

(** For guards that return and write nothing, this evaluation is the one of
    [Routing]: the same tree, the same state and the same record. *)
Lemma lift_child ph (_props0 : gmap string jsval) (r : Routing.route W)
    index (t : Routing.machine W) :
  child ph (lift_route r) index
        {| world := Routing.world t; _props := _props0;
           calls := Routing.calls t |}
  = (inr (Routing.outlet_child React_Suspense ph _props0 r index t).1,
     {| world :=
          Routing.world
            (Routing.outlet_child React_Suspense ph _props0 r index t).2;
        _props := _props0;
        calls :=
          Routing.calls
            (Routing.outlet_child React_Suspense ph _props0 r index t).2 |}).
Proof.
  unfold outlet_child, Routing.outlet_child, bind, Routing.bind, ret,
    Routing.ret, call_guard, Routing.call_guard. simpl.
  destruct (truthy (Routing.redirectTo r)); [by destruct t|].
  destruct (Routing.canEnter r) as [g|]; simpl; [|by destruct t].
  destruct (g _props0 (Routing.world t)) as [x w']. simpl.
  by destruct (truthy x).
Qed.

Lemma lift_map_from ph (_props0 : gmap string jsval)
    (rs : list (Routing.route W)) :
  forall index (t : Routing.machine W),
    map_from (child ph) index (lift_route <$> rs)
             {| world := Routing.world t; _props := _props0;
                calls := Routing.calls t |}
    = (inr (Routing.map_from
              (Routing.outlet_child React_Suspense ph _props0) index rs t).1,
       {| world :=
            Routing.world
              (Routing.map_from
                 (Routing.outlet_child React_Suspense ph _props0)
                 index rs t).2;
          _props := _props0;
          calls :=
            Routing.calls
              (Routing.map_from
                 (Routing.outlet_child React_Suspense ph _props0)
                 index rs t).2 |}).
Proof.
  induction rs as [|r rs IH]; intros index t; csimpl.
  - unfold ret, Routing.ret. by destruct t.
  - unfold bind, Routing.bind, ret, Routing.ret.
    rewrite lift_child.
    destruct (Routing.outlet_child React_Suspense ph _props0 r index t)
      as [y t0]. simpl. rewrite IH.
    by destruct (Routing.map_from _ (S index) rs t0).
Qed.

Lemma lift_RouterOutlet (ps : Routing.outlet_props W) w :
  let out := Routing.RouterOutlet React_Suspense ps
               {| Routing.world := w; Routing.calls := [] |} in
  RouterOutlet React_Suspense (lift_props ps) w
  = (inr out.1,
     {| world := Routing.world out.2;
        _props := Routing.rest_props ps;
        calls := Routing.calls out.2 |}).
Proof.
  unfold RouterOutlet, Routing.RouterOutlet, bind, Routing.bind, ret,
    Routing.ret, enter. simpl.
  change (rest_props (lift_props ps)) with (Routing.rest_props ps).
  change (placeholder_of (lift_props ps)) with (Routing.placeholder_of ps).
  rewrite (lift_map_from _ (Routing.rest_props ps) (Routing.props_routes ps) 0
             {| Routing.world := w; Routing.calls := [] |}).
  by destruct (Routing.map_from _ 0 (Routing.props_routes ps) _).
Qed.

End Facts.

(** *** At sample routes *)

(** A guard that wrote to the rest object, then a guard that reads it. *)
Lemma guards_invoked_after_a_write :
  let ps := signed_in [guarded "/a" scribbling;
                       guarded "/b" isAuthenticated] in
  (1, <["routes" := JStr "mine"]> {["authenticated" := JBool true]})
    ∈ calls (RouterOutlet Routing.React16 ps tt).2 /\
  _props (state_before Routing.React16 ps 0 tt)
  = {["authenticated" := JBool true]} /\
  _props (state_before Routing.React16 ps 2 tt)
  = <["routes" := JStr "mine"]> {["authenticated" := JBool true]}.
Proof.
  intros ps.
  destruct (guards_invoked_unless_thrown Routing.React16 ps tt
              (match (RouterOutlet Routing.React16 ps tt).1 with
               | inr tree => tree
               | inl _ => Host ""
               end)
              (RouterOutlet Routing.React16 ps tt).2
              1 (guarded "/b" isAuthenticated) isAuthenticated
              eq_refl eq_refl eq_refl eq_refl)
    as (_ & _ & Hleft & Hcall & Hstart & _).
  split; [exact Hcall|]. split; [exact Hstart|exact Hleft].
Defined.

(** *** Where the statement stops holding *)

(** C9 as stated: a guard that throws ends the evaluation, and the guard of
    the guarded route after it is not invoked; and a guard receives what an
    earlier guard wrote into the rest object, here a [routes] property. *)
Lemma guard_after_throw_not_invoked :
  let second := guarded "/b" isAuthenticated in
  let thrown := RouterOutlet Routing.React16
                  (signed_in [guarded "/a" failing; second]) tt in
  let written := RouterOutlet Routing.React16
                   (signed_in [guarded "/a" scribbling; second]) tt in
  redirectTo second = JUndefined /\
  canEnter second = Some isAuthenticated /\
  thrown.1 = inl (JStr "TypeError") /\
  calls thrown.2 = [(0, {["authenticated" := JBool true]})] /\
  (forall p, (1, p) ∉ calls thrown.2) /\
  exists p, calls written.2 !! 1 = Some (1, p) /\
            p !! "routes" = Some (JStr "mine").
Proof.
  intros second thrown written.
  split; [done|]. split; [done|]. split; [reflexivity|].
  split; [reflexivity|]. split.
  - intros p Hin.
    change (calls thrown.2)
      with [(0, ({["authenticated" := JBool true]} : gmap string jsval))]
      in Hin.
    apply list_elem_of_singleton in Hin. discriminate Hin.
  - eexists. split; [reflexivity|reflexivity].
Qed.

End RoutingFxSpec.

(** ** Facts about the app-state engine *)

Module AppStateSpec.
Import Js AppState.

Section Facts.

Context {Effect : Type}.

Implicit Types (s : Store Effect) (decls : gmap string (declaration Effect)).
Implicit Types (reg : gmap string (string * reaction Effect)).
Implicit Types (rd : reaction Effect) (ev : event Effect).

(** *** Construction *)

Lemma foldl_register_failed entityName (e : error)
    (l : list (string * reaction Effect)) :
  foldl (register entityName) (inl e) l = inl e.
Proof. by induction l. Qed.

Lemma foldl_register_one_failed (e : error)
    (l : list (string * (string * reaction Effect))) :
  foldl register_one (inl e) l = inl e.
Proof. by induction l. Qed.

Lemma foldl_register entityName (l : list (string * reaction Effect)) :
  forall acc,
    foldl (register entityName) acc l
    = foldl register_one acc ((fun ar => (ar.1, (entityName, ar.2))) <$> l).
Proof.
  induction l as [|[a r] l IH]; intros acc; [done|].
  simpl. by rewrite IH.
Qed.

Lemma build_registry_flat decls :
  build_registry decls = foldl register_one (inr ∅) (registrations decls).
Proof.
  unfold build_registry, registrations.
  generalize (inr ∅ : error + gmap string (string * reaction Effect)).
  induction (map_to_list decls) as [|[n d] l IH]; intros acc; [done|].
  rewrite bind_cons, foldl_app. simpl. rewrite <- IH.
  f_equal. unfold register_entity. simpl. apply foldl_register.
Qed.

(** Registering a list on top of a registry: on success the names were all
    new and distinct, and the registry holds exactly the old entries and the
    list; on failure the error names a position whose name was taken. *)
Lemma foldl_register_one_spec
    (l : list (string * (string * reaction Effect))) :
  forall reg,
    match foldl register_one (inr reg) l with
    | inr reg' =>
        NoDup l.*1 /\
        (forall a, a ∈ l.*1 -> reg !! a = None) /\
        (forall a v, reg' !! a = Some v <-> reg !! a = Some v \/ (a, v) ∈ l)
    | inl e =>
        exists l1 a v l2,
          e = DuplicateActionError a /\ l = l1 ++ (a, v) :: l2 /\
          (is_Some (reg !! a) \/ a ∈ l1.*1)
    end.
Proof.
  induction l as [|[a [n r]] l IH]; intros reg; csimpl.
  - split; [constructor|]. split; [by intros a ?%elem_of_nil|].
    intros a v. split; [by left|]. by intros [?|?%elem_of_nil].
  - destruct (reg !! a) as [v0|] eqn:Ha.
    + rewrite foldl_register_one_failed.
      exists [], a, (n, r), l. split; [done|]. split; [done|]. left. eauto.
    + specialize (IH (<[a := (n, r)]> reg)).
      destruct (foldl register_one _ l) as [e|reg'].
      * destruct IH as (l1 & a' & v & l2 & -> & -> & Hdup).
        exists ((a, (n, r)) :: l1), a', v, l2.
        split; [done|]. split; [done|].
        destruct (decide (a = a')) as [->|Hne].
        -- right. simpl. left.
        -- destruct Hdup as [Hs|Hin].
           ++ left. by rewrite lookup_insert_ne in Hs.
           ++ right. simpl. by right.
      * destruct IH as (Hnd & Hnew & Hlook).
        assert (a ∉ l.*1) as Hfresh.
        { intros Hin. specialize (Hnew a Hin).
          by rewrite lookup_insert_eq in Hnew. }
        split; [by constructor|]. split.
        -- intros a' [->|Hin]%elem_of_cons; [done|].
           specialize (Hnew a' Hin).
           destruct (decide (a = a')) as [->|Hne]; [done|].
           by rewrite lookup_insert_ne in Hnew.
        -- intros a' v. rewrite Hlook, elem_of_cons.
           destruct (decide (a = a')) as [->|Hne].
           ++ rewrite lookup_insert_eq, Ha. split.
              ** intros [[= <-]|Hin]; [right; by left|right; by right].
              ** intros [?|[[= ->]|Hin]]; [done|by left|by right].
           ++ rewrite lookup_insert_ne by done. split.
              ** intros [?|?]; [by left|right; by right].
              ** intros [?|[[= ? ?]|?]]; [by left|done|by right].
Qed.

Lemma elem_of_registrations decls a n r :
  (a, (n, r)) ∈ registrations decls <->
  exists d, decls !! n = Some d /\ reactions d !! a = Some r.
Proof.
  unfold registrations. rewrite list_elem_of_bind. split.
  - intros ([n' d] & Hin & Hd). simpl in Hin.
    apply list_elem_of_fmap in Hin as ([a' r'] & [= -> -> ->] & Har).
    apply elem_of_map_to_list in Hd, Har. eauto.
  - intros (d & Hd & Hr). exists (n, d). split.
    + simpl. apply list_elem_of_fmap. exists (a, r).
      split; [done|]. by apply elem_of_map_to_list.
    + by apply elem_of_map_to_list.
Qed.

Lemma NoDup_registrations decls : NoDup (registrations decls).
Proof.
  unfold registrations. apply NoDup_bind.
  - intros [n1 d1] [n2 d2] [a [n r]] H1 H2 Hy1 Hy2. simpl in *.
    apply list_elem_of_fmap in Hy1 as ([a1 r1] & [= -> -> ->] & _).
    apply list_elem_of_fmap in Hy2 as ([a2 r2] & [= _ -> _] & _).
    apply elem_of_map_to_list in H1, H2. congruence.
  - intros [n d] _. simpl. apply NoDup_fmap_2; [|apply NoDup_map_to_list].
    intros [a1 r1] [a2 r2] [= -> ->]. done.
  - apply NoDup_map_to_list.
Qed.

(** A name registered twice is declared by two different entities. *)
Lemma registrations_conflict decls l1 a v l2 :
  registrations decls = l1 ++ (a, v) :: l2 ->
  a ∈ l1.*1 ->
  exists e1 e2, e1 <> e2 /\ declares decls e1 a /\ declares decls e2 a.
Proof.
  intros Hl Hin.
  apply list_elem_of_fmap in Hin as ([a' [n1 r1]] & -> & Hin1). simpl in *.
  destruct v as [n2 r2].
  assert ((a', (n1, r1)) ∈ registrations decls) as H1.
  { rewrite Hl. apply elem_of_app. by left. }
  assert ((a', (n2, r2)) ∈ registrations decls) as H2.
  { rewrite Hl. apply elem_of_app. right. by left. }
  apply elem_of_registrations in H1 as (d1 & Hd1 & Hr1).
  apply elem_of_registrations in H2 as (d2 & Hd2 & Hr2).
  exists n1, n2. split; [|split; [exists d1|exists d2]; eauto].
  intros ->. assert (r1 = r2) as -> by congruence.
  pose proof (NoDup_registrations decls) as Hnd. rewrite Hl in Hnd.
  apply NoDup_app in Hnd as (_ & Hdisj & _).
  apply (Hdisj _ Hin1). by left.
Qed.

Lemma NoDup_fst_agree {A B} (l : list (A * B)) a v1 v2 :
  NoDup l.*1 -> (a, v1) ∈ l -> (a, v2) ∈ l -> v1 = v2.
Proof.
  induction l as [|[a' v'] l IH]; csimpl; [by intros _ ?%elem_of_nil|].
  intros [Hfresh Hnd]%NoDup_cons H1 H2.
  apply elem_of_cons in H1 as [E1|H1]; apply elem_of_cons in H2 as [E2|H2].
  - congruence.
  - injection E1 as -> ->. destruct Hfresh.
    apply list_elem_of_fmap. by exists (a', v2).
  - injection E2 as -> ->. destruct Hfresh.
    apply list_elem_of_fmap. by exists (a', v1).
  - by apply IH.
Qed.

(** What [construct] answers, in full. *)
Lemma construct_cases decls :
  match construct decls with
  | inr s =>
      NoDup (registrations decls).*1 /\
      (forall a n r,
          actionRegistry s !! a = Some (n, r) <->
          exists d, decls !! n = Some d /\ reactions d !! a = Some r) /\
      entities s = map_imap (fun n d => Some (initial_entity n d)) decls /\
      subscribers s = [] /\ pending s = ∅ /\ next_handle s = 0 /\ trace s = []
  | inl e =>
      exists a e1 e2,
        e = DuplicateActionError a /\ e1 <> e2 /\
        declares decls e1 a /\ declares decls e2 a
  end.
Proof.
  unfold construct. rewrite build_registry_flat.
  pose proof (foldl_register_one_spec (registrations decls) ∅) as H.
  destruct (foldl register_one _ _) as [e|reg].
  - destruct H as (l1 & a & v & l2 & -> & Hl & [[? Hs]|Hin]).
    { by rewrite lookup_empty in Hs. }
    destruct (registrations_conflict decls l1 a v l2 Hl Hin)
      as (e1 & e2 & ?). by exists a, e1, e2.
  - destruct H as (Hnd & _ & Hlook). simpl. split; [done|].
    split; [|done]. intros a n r.
    rewrite Hlook, lookup_empty, elem_of_registrations.
    split; [by intros [?|?] | by right].
Qed.

(** C3.  Construction succeeds when no action name is declared by two
    entities, registering every declared action under its entity and giving
    every entity its initial state; when two entities declare one name it
    fails with [DuplicateActionError] carrying a name that two entities
    declare. *)
Theorem construct_unique_or_duplicate decls :
  (unique_actions decls ->
   exists s,
     construct decls = inr s /\
     (forall a n r,
         actionRegistry s !! a = Some (n, r) <->
         exists d, decls !! n = Some d /\ reactions d !! a = Some r) /\
     (forall n d, decls !! n = Some d ->
                  entities s !! n = Some (initial_entity n d))) /\
  (forall e1 e2 a,
      e1 <> e2 -> declares decls e1 a -> declares decls e2 a ->
      exists a' e1' e2',
        construct decls = inl (DuplicateActionError a') /\
        e1' <> e2' /\ declares decls e1' a' /\ declares decls e2' a').
Proof.
  pose proof (construct_cases decls) as H. split.
  - intros Huniq. destruct (construct decls) as [e|s].
    + destruct H as (a & e1 & e2 & _ & Hne & H1 & H2).
      destruct Hne. by apply (Huniq e1 e2 a).
    + destruct H as (_ & Hreg & Hent & _). exists s.
      split; [done|]. split; [done|]. intros n d Hd.
      by rewrite Hent, map_lookup_imap, Hd.
  - intros e1 e2 a Hne (d1 & Hd1 & [r1 Hr1]) (d2 & Hd2 & [r2 Hr2]).
    destruct (construct decls) as [e|s].
    + destruct H as (a' & e1' & e2' & -> & ?). by exists a', e1', e2'.
    + destruct H as (Hnd & _). destruct Hne.
      assert ((e1, r1) = (e2, r2)) as [= ? _]; [|done].
      apply (NoDup_fst_agree (registrations decls) a); [done|..];
        apply elem_of_registrations; eauto.
Qed.

(** *** Publishing *)

Lemma updates_quiet n s :
  replacements (updates n s) = [] /\
  notifications (updates n s) = [] /\
  forall h r, Completed h r ∉ updates n s.
Proof.
  unfold updates.
  induction (filter _ (subscribers s)) as [|sub l (IH1 & IH2 & IH3)]; csimpl.
  - split; [done|]. split; [done|]. by intros h r ?%elem_of_nil.
  - split; [done|]. split; [done|].
    intros h r [?|?]%elem_of_cons; [done|]. by apply (IH3 h r).
Qed.

Lemma publish_trace n st s :
  trace (publish n st s)
  = trace s ++ Replaced n st :: Notify n :: updates n (publish n st s).
Proof. unfold publish, notify, log. simpl. by rewrite <- app_assoc. Qed.

Lemma publish_entities n st s :
  entities (publish n st s) = alter (with_state st) n (entities s).
Proof. done. Qed.

Lemma added_app s s' evs : trace s' = trace s ++ evs -> added s s' = evs.
Proof. intros H. unfold added. rewrite H. apply drop_app_length. Qed.

Lemma alter_present n (f : Entity Effect -> Entity Effect)
    (m : gmap string (Entity Effect)) e :
  m !! n = Some e -> alter f n m = <[n := f e]> m.
Proof.
  intros H. apply map_eq. intros k. rewrite lookup_alter, lookup_insert.
  case_decide; [subst; by rewrite H|done].
Qed.

(** *** The invariant *)

Lemma wf_publish n st s : wf s -> wf (publish n st s).
Proof.
  intros (Hreg & Hpend & Hdone). split; [|split].
  - intros a n' rd Ha. rewrite publish_entities.
    apply lookup_alter_is_Some. by apply (Hreg a n' rd).
  - intros h n' c Hh. rewrite publish_entities.
    destruct (Hpend h n' c Hh) as [? ?].
    split; [by apply lookup_alter_is_Some|done].
  - intros h r. rewrite publish_trace.
    intros [Hin|Hin]%elem_of_app; [by apply (Hdone h r)|].
    apply elem_of_cons in Hin as [?|Hin]; [done|].
    apply elem_of_cons in Hin as [?|Hin]; [done|].
    by destruct (proj2 (proj2 (updates_quiet n (publish n st s))) h r).
Qed.

Lemma wf_invoke_effect n eff payload c s :
  is_Some (entities s !! n) -> wf s -> wf (invoke_effect n eff payload c s).
Proof.
  intros Hn (Hreg & Hpend & Hdone). split; [|split]; simpl.
  - done.
  - intros h n' c'. rewrite lookup_insert. case_decide as Hh.
    + intros [= <- <-]. subst h. split; [done|lia].
    + intros Hp. destruct (Hpend h n' c' Hp). split; [done|lia].
  - intros h r [Hin|Hin]%elem_of_app.
    + destruct (Hdone h r Hin) as [Hlt Hnone].
      split; [lia|]. rewrite lookup_insert_ne by lia. done.
    + by apply list_elem_of_singleton in Hin.
Qed.

Lemma wf_dispatch actionName payload s :
  wf s -> wf (dispatch actionName payload s).1.
Proof.
  intros Hwf. unfold dispatch.
  destruct (actionRegistry s !! actionName) as [[n rd]|]; [|done].
  destruct (entities s !! n) as [e|] eqn:He; [|done]. simpl.
  destruct rd as [transition|startup eff completion]; simpl.
  - by apply wf_publish.
  - destruct startup as [f|].
    + apply wf_invoke_effect; [|by apply wf_publish].
      rewrite publish_entities. apply lookup_alter_is_Some. eauto.
    + apply wf_invoke_effect; eauto.
Qed.

Lemma wf_complete handle result s :
  wf s -> wf (complete handle result s).1.
Proof.
  intros Hwf. unfold complete.
  destruct (pending s !! handle) as [[n c]|] eqn:Hh; [|done].
  destruct (entities s !! n) as [e|]; [|done]. simpl.
  apply wf_publish. destruct Hwf as (Hreg & Hpend & Hdone).
  split; [|split]; simpl.
  - done.
  - intros h n' c' [_ Hp]%lookup_delete_Some. by apply (Hpend h n' c').
  - intros h r [Hin|Hin]%elem_of_app.
    + destruct (Hdone h r Hin) as [Hlt Hnone].
      split; [done|]. apply lookup_delete_None. by right.
    + apply list_elem_of_singleton in Hin as [= -> ->].
      split; [by apply (Hpend handle n c)|]. apply lookup_delete_eq.
Qed.

Lemma wf_subscribe sub s : wf s -> wf (subscribe sub s).
Proof.
  intros (Hreg & Hpend & Hdone). split; [|split]; simpl; [done..|].
  intros h r [Hin|Hin]%elem_of_app; [by apply (Hdone h r)|].
  by apply list_elem_of_singleton in Hin.
Qed.

Lemma wf_construct decls s : construct decls = inr s -> wf s.
Proof.
  intros Hc. pose proof (construct_cases decls) as H. rewrite Hc in H.
  destruct H as (_ & Hreg & Hent & _ & Hpend & _ & Htrace).
  split; [|split].
  - intros a n rd [d [Hd _]]%Hreg.
    by rewrite Hent, map_lookup_imap, Hd.
  - intros h n c. by rewrite Hpend, lookup_empty.
  - intros h r. rewrite Htrace. by intros ?%elem_of_nil.
Qed.

Lemma reachable_wf decls s : reachable decls s -> wf s.
Proof.
  induction 1 as [s Hc|s a p _ IH|s h r _ IH|s sub _ IH|s c _ IH].
  - by apply (wf_construct decls).
  - by apply wf_dispatch.
  - by apply wf_complete.
  - by apply wf_subscribe.
  - exact IH.
Qed.

(** *** Dispatch *)

(** C4.  Dispatching a name that is not in the registry fails with
    [UnknownActionError] and returns the store as it was: every entity keeps
    its state. *)
Theorem dispatch_unknown s actionName payload :
  actionRegistry s !! actionName = None ->
  dispatch actionName payload s = (s, Some (UnknownActionError actionName)) /\
  forall n, getState n (dispatch actionName payload s).1 = getState n s.
Proof. intros H. unfold dispatch. by rewrite H. Qed.

Lemma dispatch_registered s actionName payload n rd e :
  actionRegistry s !! actionName = Some (n, rd) ->
  entities s !! n = Some e ->
  dispatch actionName payload s
  = (execute rd n (state e) payload s, None).
Proof. intros Ha He. unfold dispatch. by rewrite Ha, He. Qed.

Lemma invoke_effect_trace n eff payload c s :
  trace (invoke_effect n eff payload c s)
  = trace s ++ [EffectInvoked eff payload (next_handle s)].
Proof. done. Qed.

Lemma lookup_list_to_map_first (l : list (string * jsval)) k v :
  k ∈ l.*1 ->
  (forall v', (k, v') ∈ l -> v' = v) ->
  (list_to_map l : gmap string jsval) !! k = Some v.
Proof.
  induction l as [|[k0 v0] l IH]; csimpl; [by intros ?%elem_of_nil|].
  intros Hin Hall. destruct (decide (k0 = k)) as [->|Hne].
  - rewrite lookup_insert_eq. f_equal. apply Hall. by left.
  - rewrite lookup_insert_ne by done. apply IH.
    + by apply elem_of_cons in Hin as [?|?].
    + intros v' Hv'. apply Hall. by right.
Qed.

(** An imported entity that no imported action shadows arrives as a prop
    holding the entity's current state. *)
Lemma injected_entity s (sub : subscriber) n e :
  n ∈ entityNames sub -> n ∉ actionNames sub ->
  entities s !! n = Some e ->
  injected s sub !! n = Some (state e).
Proof.
  intros Hin Hout He. unfold injected.
  rewrite list_to_map_app, lookup_union_r.
  - apply lookup_list_to_map_first.
    + apply list_elem_of_fmap. exists (n, state e). split; [done|].
      apply list_elem_of_omap. exists n. split; [done|]. by rewrite He.
    + intros v' (m & _ & Hm)%list_elem_of_omap.
      destruct (entities s !! m) as [e'|] eqn:He'; [|done].
      simpl in Hm. injection Hm as -> <-. congruence.
  - apply not_elem_of_list_to_map_1.
    intros ([a f] & -> & (a' & [= -> ->] & Ha')%list_elem_of_fmap)%list_elem_of_fmap.
    by destruct Hout.
Qed.

(** *** Outstanding handles *)

Lemma dispatch_keeps_pending actionName payload s h x :
  wf s -> pending s !! h = Some x ->
  pending (dispatch actionName payload s).1 !! h = Some x.
Proof.
  intros (_ & Hpend & _) Hh.
  assert (h <> next_handle s) as Hne.
  { destruct x as [m c]. destruct (Hpend h m c Hh) as [_ ?]. lia. }
  unfold dispatch.
  destruct (actionRegistry s !! actionName) as [[n rd]|]; [|done].
  destruct (entities s !! n) as [e|]; [|done]. cbn [fst].
  destruct rd as [transition|[f|] eff completion]; simpl; [done|..];
    by rewrite lookup_insert_ne.
Qed.

Lemma complete_keeps_pending handle result s h x :
  handle <> h -> pending s !! h = Some x ->
  pending (complete handle result s).1 !! h = Some x.
Proof.
  intros Hne Hh. unfold complete.
  destruct (pending s !! handle) as [[n c]|]; [|done].
  destruct (entities s !! n) as [e|]; [|done]. simpl.
  by rewrite lookup_delete_ne.
Qed.

(** Until [complete h] is invoked, the stores stay reachable and the handle
    stays outstanding, whatever other actions are dispatched or completed. *)
Lemma runs_without_outstanding decls s s' h x :
  reachable decls s -> pending s !! h = Some x ->
  runs_without h s s' ->
  reachable decls s' /\ pending s' !! h = Some x.
Proof.
  intros Hreach Hh.
  induction 1 as [|s' a p _ [IHr IHp]|s' h' r Hne _ [IHr IHp]
                  |s' sub _ [IHr IHp]|s' c _ [IHr IHp]].
  - done.
  - split; [by apply reach_dispatch|].
    apply dispatch_keeps_pending; [by apply (reachable_wf decls)|done].
  - split; [by apply reach_complete|]. by apply complete_keeps_pending.
  - split; [by apply reach_subscribe|done].
  - split; [by apply reach_unsubscribe|done].
Qed.

(** C1.  In a store built from entities, dispatching an action registered
    with a [Simple] reaction succeeds and makes exactly one state
    replacement: the owning entity then holds [transition(oldState, payload)]
    and every other entity what it held.  It is followed by exactly one
    [notify] of that entity, which calls the update callback of each
    subscriber whose list names the entity, and of no other, with props in
    which the entity is the new state. *)
Theorem simple_dispatch decls s actionName n transition payload :
  reachable decls s ->
  actionRegistry s !! actionName = Some (n, Simple transition) ->
  exists e,
    entities s !! n = Some e /\
    let new := transition (state e) payload in
    let s' := (dispatch actionName payload s).1 in
    (dispatch actionName payload s).2 = None /\
    getState n s' = inr new /\
    (forall m, m <> n -> getState m s' = getState m s) /\
    added s s'
    = Replaced n new :: Notify n
      :: ((fun sub => Update (componentIdentity sub) (injected s' sub))
            <$> filter (fun sub => n ∈ entityNames sub) (subscribers s)) /\
    (forall sub, n ∈ entityNames sub -> n ∉ actionNames sub ->
                 injected s' sub !! n = Some new) /\
    replacements (added s s') = [(n, new)] /\
    notifications (added s s') = [n].
Proof.
  intros Hreach Ha.
  destruct (reachable_wf decls s Hreach) as (Hreg & _).
  destruct (Hreg _ _ _ Ha) as [e He]. exists e. split; [done|].
  rewrite (dispatch_registered s actionName payload n _ e Ha He).
  cbn [fst snd execute].
  set (new := transition (state e) payload).
  assert (entities (publish n new s) !! n = Some (with_state new e)) as Hn.
  { by rewrite publish_entities, lookup_alter_eq, He. }
  assert (added s (publish n new s)
          = Replaced n new :: Notify n :: updates n (publish n new s)) as Hadd.
  { apply added_app, publish_trace. }
  split; [done|]. split; [by unfold getState; rewrite Hn|].
  split.
  { intros m Hm. unfold getState.
    by rewrite publish_entities, lookup_alter_ne. }
  split; [exact Hadd|]. split.
  { intros sub Hin Hout.
    by rewrite (injected_entity _ sub n (with_state new e) Hin Hout Hn). }
  rewrite Hadd.
  destruct (updates_quiet n (publish n new s)) as (Hr & Hnot & _).
  unfold replacements, notifications in *. csimpl. by rewrite Hr, Hnot.
Qed.

(** C2.  Dispatching a three-step [Async] reaction publishes the [startup]
    result: the entity holds it, [notify] runs and every subscriber whose
    list names the entity is updated with it; only then is [effect] invoked,
    with a fresh completion handle, and nothing else happens in the call.
    Whatever is dispatched, completed on other handles, subscribed or
    unsubscribed afterwards, the handle stays outstanding and no completion
    runs for it until [complete(result)] is invoked on it; that invocation
    publishes [completion(latestState, result)] in the same way and spends
    the handle. *)
Theorem async_dispatch decls s actionName n startup eff completion payload :
  reachable decls s ->
  actionRegistry s !! actionName
  = Some (n, Async (Some startup) eff completion) ->
  exists e,
    entities s !! n = Some e /\
    let mid := startup (state e) payload in
    let h := next_handle s in
    let s1 := (dispatch actionName payload s).1 in
    (dispatch actionName payload s).2 = None /\
    added s s1
    = Replaced n mid :: Notify n
      :: ((fun sub => Update (componentIdentity sub) (injected s1 sub))
            <$> filter (fun sub => n ∈ entityNames sub) (subscribers s))
      ++ [EffectInvoked eff payload h] /\
    getState n s1 = inr mid /\
    (forall sub, n ∈ entityNames sub -> n ∉ actionNames sub ->
                 injected s1 sub !! n = Some mid) /\
    (forall s2,
        runs_without h s1 s2 ->
        pending s2 !! h = Some (n, completion) /\
        (forall r, Completed h r ∉ trace s2) /\
        exists e2,
          entities s2 !! n = Some e2 /\
          forall result,
            let fin := completion (state e2) result in
            let s3 := (complete h result s2).1 in
            (complete h result s2).2 = None /\
            added s2 s3
            = Completed h result :: Replaced n fin :: Notify n
              :: ((fun sub => Update (componentIdentity sub) (injected s3 sub))
                    <$> filter (fun sub => n ∈ entityNames sub)
                               (subscribers s2)) /\
            getState n s3 = inr fin /\
            (forall sub, n ∈ entityNames sub -> n ∉ actionNames sub ->
                         injected s3 sub !! n = Some fin) /\
            pending s3 !! h = None).
Proof.
  intros Hreach Ha.
  destruct (reachable_wf decls s Hreach) as (Hreg & _).
  destruct (Hreg _ _ _ Ha) as [e He]. exists e. split; [done|].
  pose proof (reach_dispatch decls s actionName payload Hreach) as Hreach1.
  revert Hreach1.
  rewrite (dispatch_registered s actionName payload n _ e Ha He).
  cbn [fst snd execute]. intros Hreach1.
  set (mid := startup (state e) payload) in *.
  assert (entities (publish n mid s) !! n = Some (with_state mid e)) as Hn.
  { by rewrite publish_entities, lookup_alter_eq, He. }
  split; [done|]. split; [|split; [|split]].
  - apply added_app. rewrite invoke_effect_trace, publish_trace.
    by rewrite <- app_assoc.
  - unfold getState. simpl. by rewrite lookup_alter_eq, He.
  - intros sub Hin Hout.
    exact (injected_entity (publish n mid s) sub n (with_state mid e)
             Hin Hout Hn).
  - intros s2 Hrun.
    destruct (runs_without_outstanding decls _ s2 (next_handle s)
                (n, completion) Hreach1 (lookup_insert_eq _ _ _) Hrun)
      as [Hreach2 Hh].
    destruct (reachable_wf decls s2 Hreach2) as (_ & Hpend & Hdone).
    split; [done|]. split.
    + intros r Hin. destruct (Hdone _ _ Hin) as [_ Hnone]. congruence.
    + destruct (Hpend _ _ _ Hh) as [[e2 He2] _]. exists e2.
      split; [done|]. intros result. unfold complete. rewrite Hh, He2.
      cbn [fst snd].
      set (fin := completion (state e2) result).
      split; [done|]. split; [|split; [|split]].
      * apply added_app. rewrite publish_trace. simpl.
        by rewrite <- app_assoc.
      * unfold getState. simpl. by rewrite lookup_alter_eq, He2.
      * intros sub Hin Hout.
        apply (injected_entity _ sub n (with_state fin e2) Hin Hout).
        by rewrite publish_entities; simpl; rewrite lookup_alter_eq, He2.
      * apply lookup_delete_eq.
Qed.

End Facts.

(** *** The scenarios, evaluated *)

Example scenario_A :
  getState "counter"
    (dispatch "increment" JUndefined
       (dispatch "increment" JUndefined counter_app).1).1
  = inr (JObj [("count", JNum 2)]).
Proof. vm_compute. reflexivity. Qed.

Example scenario_B :
  let s1 := (dispatch "login" creds session_app).1 in
  let s2 := (complete 0 (JObj [("auth", JStr "user-1")]) s1).1 in
  getState "session" s2
  = inr (JObj [("auth", JStr "user-1"); ("error", JBool false);
               ("pending", JBool false)]) /\
  notifications (trace s2) = ["session"; "session"].
Proof. vm_compute. done. Qed.

Example scenario_C :
  construct clashing_decls = inl (DuplicateActionError "save").
Proof. vm_compute. reflexivity. Qed.

(** *** The theorems at the scenarios *)

Lemma counter_app_reachable : reachable counter_decls counter_app.
Proof. apply reach_subscribe, reach_construct. vm_compute. reflexivity. Defined.

Lemma simple_dispatch_counter :
  getState "counter" (dispatch "increment" JUndefined counter_app).1
  = inr (JObj [("count", JNum 1)]) /\
  added counter_app (dispatch "increment" JUndefined counter_app).1
  = [Replaced "counter" (JObj [("count", JNum 1)]);
     Notify "counter";
     Update 1 (injected (dispatch "increment" JUndefined counter_app).1
                        counter_view)] /\
  injected (dispatch "increment" JUndefined counter_app).1 counter_view
    !! "counter"
  = Some (JObj [("count", JNum 1)]).
Proof.
  destruct (simple_dispatch counter_decls counter_app "increment" "counter"
              increment JUndefined counter_app_reachable eq_refl)
    as (e & He & _ & Hget & _ & Hadd & Hinj & _).
  assert (Some e = Some (initial_entity "counter" counter)) as [= ->].
  { rewrite <- He. reflexivity. }
  split; [exact Hget|]. split; [exact Hadd|].
  apply (Hinj counter_view).
  - apply list_elem_of_here.
  - intros Hin. apply list_elem_of_singleton in Hin. discriminate Hin.
Defined.

Lemma session_live_reachable : reachable session_decls session_live.
Proof. apply reach_subscribe, reach_construct. vm_compute. reflexivity. Defined.

(** Two logins in flight; the first is completed after the second was
    dispatched. *)
Lemma async_dispatch_login :
  let s1 := (dispatch "login" creds session_live).1 in
  let s2 := (dispatch "login" other_creds s1).1 in
  let s3 := (complete 0 (JObj [("auth", JStr "user-1")]) s2).1 in
  added session_live s1
  = [Replaced "session"
       (JObj [("auth", JNull); ("error", JBool false);
              ("pending", JBool true)]);
     Notify "session";
     Update 7 (injected s1 session_view);
     EffectInvoked "login" creds 0] /\
  pending s2 !! 0 = Some ("session", login_completion) /\
  getState "session" s3
  = inr (JObj [("auth", JStr "user-1"); ("error", JBool false);
               ("pending", JBool false)]) /\
  added s2 s3
  = [Completed 0 (JObj [("auth", JStr "user-1")]);
     Replaced "session"
       (JObj [("auth", JStr "user-1"); ("error", JBool false);
              ("pending", JBool false)]);
     Notify "session";
     Update 7 (injected s3 session_view)].
Proof.
  intros s1 s2 s3.
  destruct (async_dispatch session_decls session_live "login" "session"
              login_startup "login" login_completion creds
              session_live_reachable eq_refl)
    as (e & He & _ & Hadd & _ & _ & Hlater).
  assert (Some e = Some (initial_entity "session" session)) as [= ->].
  { rewrite <- He. reflexivity. }
  split; [exact Hadd|].
  destruct (Hlater s2 (rw_dispatch _ _ _ "login" other_creds (rw_here _ _)))
    as (Hpend & _ & e2 & He2 & Hdone).
  split; [exact Hpend|].
  assert (Some e2
          = Some (with_state
                    (JObj [("auth", JNull); ("error", JBool false);
                           ("pending", JBool true)])
                    (initial_entity "session" session))) as [= ->].
  { rewrite <- He2. vm_compute. reflexivity. }
  destruct (Hdone (JObj [("auth", JStr "user-1")]))
    as (_ & Hadd3 & Hget3 & _).
  split; [exact Hget3|exact Hadd3].
Defined.

Lemma counter_decls_unique : unique_actions counter_decls.
Proof.
  unfold counter_decls. intros e1 e2 a (d1 & H1 & _) (d2 & H2 & _).
  apply lookup_singleton_Some in H1 as [<- _].
  apply lookup_singleton_Some in H2 as [<- _].
  reflexivity.
Defined.

Lemma construct_counter_and_clash :
  (exists s, construct counter_decls = inr s) /\
  (exists a e1 e2,
      construct clashing_decls = inl (DuplicateActionError a) /\
      e1 <> e2 /\ declares clashing_decls e1 a /\
      declares clashing_decls e2 a).
Proof.
  split.
  - destruct (proj1 (construct_unique_or_duplicate counter_decls)
                counter_decls_unique) as (s & Hs & _).
    exists s. exact Hs.
  - apply (proj2 (construct_unique_or_duplicate clashing_decls)
             "draft" "note" "save").
    + discriminate.
    + exists saver. split; [reflexivity|]. exists (Simple (fun s _ => s)).
      reflexivity.
    + exists saver. split; [reflexivity|]. exists (Simple (fun s _ => s)).
      reflexivity.
Defined.

Lemma dispatch_unknown_decrement :
  dispatch "decrement" JUndefined counter_app
  = (counter_app, Some (UnknownActionError "decrement")) /\
  forall n,
    getState n (dispatch "decrement" JUndefined counter_app).1
    = getState n counter_app.
Proof.
  exact (dispatch_unknown counter_app "decrement" JUndefined eq_refl).
Defined.

(** *** Further facts about the engine *)

Section Runs.

Context {Effect : Type}.

Implicit Types (s : Store Effect) (decls : gmap string (declaration Effect)).
Implicit Types (rd : reaction Effect).

Lemma execute_entities rd n cur payload s :
  same_or_replaced n s (execute rd n cur payload s) /\
  actionRegistry (execute rd n cur payload s) = actionRegistry s /\
  subscribers (execute rd n cur payload s) = subscribers s.
Proof.
  destruct rd as [transition|[f|] eff completion]; simpl.
  - split; [right; by eexists|done].
  - split; [right; by eexists|done].
  - split; [by left|done].
Qed.

Lemma dispatch_entities actionName payload s :
  actionRegistry (dispatch actionName payload s).1 = actionRegistry s /\
  subscribers (dispatch actionName payload s).1 = subscribers s /\
  (entities (dispatch actionName payload s).1 = entities s \/
   exists n rd, actionRegistry s !! actionName = Some (n, rd) /\
                same_or_replaced n s (dispatch actionName payload s).1).
Proof.
  unfold dispatch.
  destruct (actionRegistry s !! actionName) as [[n rd]|] eqn:Ha;
    [|by auto].
  destruct (entities s !! n) as [e|]; [|by auto]. cbn [fst].
  destruct (execute_entities rd n (state e) payload s) as (He & Hr & Hs).
  split; [done|]. split; [done|]. right. by exists n, rd.
Qed.

Lemma complete_entities handle result s :
  actionRegistry (complete handle result s).1 = actionRegistry s /\
  (entities (complete handle result s).1 = entities s \/
   exists n c, pending s !! handle = Some (n, c) /\
               same_or_replaced n s (complete handle result s).1).
Proof.
  unfold complete.
  destruct (pending s !! handle) as [[n c]|] eqn:Hh; [|by auto].
  destruct (entities s !! n) as [e|]; [|by auto]. cbn [fst].
  split; [done|]. right. exists n, c. split; [done|]. right. by eexists.
Qed.

Lemma as_declared_step decls s s' n :
  actionRegistry s' = actionRegistry s ->
  same_or_replaced n s s' ->
  as_declared decls s -> as_declared decls s'.
Proof.
  intros Hreg Hent (H1 & H2 & H3). split; [|split].
  - intros a m rd. rewrite Hreg. apply H1.
  - intros m. rewrite <- H2. destruct Hent as [->|[st ->]]; [done|].
    apply lookup_alter_is_Some.
  - intros m e. destruct Hent as [->|[st ->]]; [apply H3|].
    rewrite lookup_alter. case_decide as Hm; [|apply H3]. subst m.
    destruct (entities s !! n) as [e0|] eqn:He0; [|done].
    intros [= <-]. simpl. by apply H3.
Qed.

(** X10.  Along every run the registry holds exactly the declared actions,
    each under its declaring entity, and the store holds exactly the declared
    entities, each under its own name with its declared reactions: nothing
    registers, renames, adds or removes after construction. *)
Theorem run_keeps_declarations decls s :
  reachable decls s ->
  (forall a n rd,
      actionRegistry s !! a = Some (n, rd) <->
      exists d, decls !! n = Some d /\ reactions d !! a = Some rd) /\
  (forall n, is_Some (entities s !! n) <-> is_Some (decls !! n)) /\
  (forall n e,
      entities s !! n = Some e ->
      name e = n /\
      exists d, decls !! n = Some d /\ reactionTable e = reactions d).
Proof.
  change (reachable decls s -> as_declared decls s).
  induction 1 as [s Hc|s a p _ IH|s h r _ IH|s sub _ IH|s c _ IH].
  - pose proof (construct_cases decls) as H. rewrite Hc in H.
    destruct H as (_ & Hreg & Hent & _). split; [done|]. split.
    + intros n. rewrite Hent, map_lookup_imap.
      destruct (decls !! n); simpl; [split; intros _; by eexists|done].
    + intros n e. rewrite Hent, map_lookup_imap.
      destruct (decls !! n) as [d|] eqn:Hd; [|done].
      simpl. intros [= <-]. split; [done|]. by exists d.
  - destruct (dispatch_entities a p s) as (Hreg & _ & [He|(n & rd & _ & He)]).
    + apply (as_declared_step decls s _ a); [done|by left|done].
    + by apply (as_declared_step decls s _ n).
  - destruct (complete_entities h r s) as (Hreg & [He|(n & c & _ & He)]).
    + apply (as_declared_step decls s _ ""); [done|by left|done].
    + by apply (as_declared_step decls s _ n).
  - exact IH.
  - exact IH.
Qed.

(** X11.  [dispatch] and [complete] replace the state of no entity but the
    owner: an entity to which the dispatched action is not registered, or to
    which the completed handle does not belong, is left as it was. *)
Theorem steps_touch_owner_only s m :
  (forall actionName payload,
      (forall rd, actionRegistry s !! actionName <> Some (m, rd)) ->
      entities (dispatch actionName payload s).1 !! m = entities s !! m) /\
  (forall handle result,
      (forall c, pending s !! handle <> Some (m, c)) ->
      entities (complete handle result s).1 !! m = entities s !! m).
Proof.
  split.
  - intros a p Hm.
    destruct (dispatch_entities a p s)
      as (_ & _ & [->|(n & rd & Ha & [->|[st ->]])]); [done..|].
    apply lookup_alter_ne. intros ->. by apply (Hm rd).
  - intros h r Hm.
    destruct (complete_entities h r s)
      as (_ & [->|(n & c & Hh & [->|[st ->]])]); [done..|].
    apply lookup_alter_ne. intros ->. by apply (Hm c).
Qed.

Lemma updates_of_updates c n s :
  updates_of c (updates n s)
  = injected s
      <$> filter (fun sub => componentIdentity sub = c /\ n ∈ entityNames sub)
                 (subscribers s).
Proof.
  unfold updates, updates_of.
  induction (subscribers s) as [|sub l IH]; [done|].
  rewrite !filter_cons.
  destruct (decide (n ∈ entityNames sub)) as [Hin|Hout].
  - csimpl. rewrite IH. destruct (decide (componentIdentity sub = c)).
    + rewrite decide_True by done. done.
    + rewrite decide_False by (by intros [? _]). done.
  - rewrite decide_False by (by intros [_ ?]). done.
Qed.

(** X12.  After a [Simple] dispatch on entity [n], a component receives one
    update, carrying its freshly injected props, for each of its
    subscriptions that lists [n], and none otherwise: components that did not
    import the entity are not re-rendered. *)
Theorem simple_dispatch_updates decls s actionName n transition payload c :
  reachable decls s ->
  actionRegistry s !! actionName = Some (n, Simple transition) ->
  updates_of c (added s (dispatch actionName payload s).1)
  = injected (dispatch actionName payload s).1
      <$> filter (fun sub => componentIdentity sub = c /\ n ∈ entityNames sub)
                 (subscribers s).
Proof.
  intros Hreach Ha.
  destruct (reachable_wf decls s Hreach) as (Hreg & _).
  destruct (Hreg _ _ _ Ha) as [e He].
  rewrite (dispatch_registered s actionName payload n _ e Ha He).
  cbn [fst execute].
  rewrite (added_app s _ _ (publish_trace n _ s)).
  exact (updates_of_updates c n (publish n (transition (state e) payload) s)).
Qed.

(** X13.  Dispatching a two-step [Async] reaction changes no state before
    the effect runs: the call records only the effect's invocation, with a
    fresh completion handle that stays outstanding, and every entity is as it
    was when the call returns. *)
Theorem two_step_dispatch decls s actionName n eff completion payload :
  reachable decls s ->
  actionRegistry s !! actionName = Some (n, Async None eff completion) ->
  (dispatch actionName payload s).2 = None /\
  added s (dispatch actionName payload s).1
  = [EffectInvoked eff payload (next_handle s)] /\
  entities (dispatch actionName payload s).1 = entities s /\
  pending (dispatch actionName payload s).1 !! next_handle s
  = Some (n, completion) /\
  pending s !! next_handle s = None.
Proof.
  intros Hreach Ha.
  destruct (reachable_wf decls s Hreach) as (Hreg & Hpend & _).
  destruct (Hreg _ _ _ Ha) as [e He].
  rewrite (dispatch_registered s actionName payload n _ e Ha He).
  cbn [fst snd execute].
  split; [done|]. split; [by apply added_app|]. split; [done|].
  split; [apply lookup_insert_eq|].
  destruct (pending s !! next_handle s) as [[m c]|] eqn:Hh; [|done].
  destruct (Hpend _ _ _ Hh) as [_ Hlt]. lia.
Qed.

End Runs.

(** *** The README's [session] reactions *)

Lemma assoc_put_eq k v fields : assoc k (put k v fields) = v.
Proof.
  induction fields as [|[k' v'] fields IH]; simpl.
  - by rewrite String.eqb_refl.
  - destruct (String.eqb k k') eqn:E; simpl; by rewrite ?String.eqb_refl, ?E.
Qed.

Lemma assoc_put_ne k k' v fields :
  k <> k' -> assoc k' (put k v fields) = assoc k' fields.
Proof.
  intros Hne. apply not_eq_sym, String.eqb_neq in Hne.
  induction fields as [|[k0 v0] fields IH]; simpl.
  - by rewrite Hne.
  - destruct (String.eqb k k0) eqn:E; simpl.
    + apply String.eqb_eq in E as ->. by rewrite Hne.
    + by rewrite IH.
Qed.

(** X14.  On object states and results, the README's [login] completion
    takes [auth] and [error] from the result alone: the result's value when
    it has one, [null] for a missing [auth] and [false] for a missing
    [error], so that a success clears an earlier error and a failure clears
    an earlier sign-in; [logout] sets [auth] to [null]; both keep every
    other field of the state. *)
Theorem readme_session_reactions fields result payload k :
  k <> "auth" ->
  get "auth" (readme_login_completion (JObj fields) (JObj result))
  = match assoc "auth" result with
    | JUndefined => JNull
    | given => given
    end /\
  get "error" (readme_login_completion (JObj fields) (JObj result))
  = match assoc "error" result with
    | JUndefined => JBool false
    | given => given
    end /\
  (k <> "error" ->
   get k (readme_login_completion (JObj fields) (JObj result))
   = get k (JObj fields)) /\
  get "auth" (readme_logout (JObj fields) payload) = JNull /\
  get k (readme_logout (JObj fields) payload) = get k (JObj fields).
Proof.
  intros Hk. unfold readme_login_completion, readme_logout, or_default.
  simpl.
  split.
  { rewrite assoc_put_ne, assoc_put_eq by done.
    by destruct (assoc "auth" result). }
  split.
  { rewrite assoc_put_eq. by destruct (assoc "error" result). }
  split; [intros Hk'; by rewrite !assoc_put_ne by done|].
  split; [by rewrite assoc_put_eq|by rewrite assoc_put_ne by done].
Qed.

(** A success after a failure, and a failure after a success. *)
Lemma readme_session_reactions_both :
  (get "auth" (readme_login_completion
                 (JObj [("auth", JNull); ("error", JStr "denied")])
                 (JObj [("auth", JStr "user-1")]))
   = JStr "user-1" /\
   get "error" (readme_login_completion
                  (JObj [("auth", JNull); ("error", JStr "denied")])
                  (JObj [("auth", JStr "user-1")]))
   = JBool false) /\
  (get "auth" (readme_login_completion
                 (JObj [("auth", JStr "user-1"); ("error", JBool false)])
                 (JObj [("error", JStr "denied")]))
   = JNull /\
   get "error" (readme_login_completion
                  (JObj [("auth", JStr "user-1"); ("error", JBool false)])
                  (JObj [("error", JStr "denied")]))
   = JStr "denied").
Proof.
  split.
  - destruct (readme_session_reactions
                [("auth", JNull); ("error", JStr "denied")]
                [("auth", JStr "user-1")] JUndefined "error"
                ltac:(discriminate)) as (Hauth & Herror & _).
    split; [exact Hauth|exact Herror].
  - destruct (readme_session_reactions
                [("auth", JStr "user-1"); ("error", JBool false)]
                [("error", JStr "denied")] JUndefined "error"
                ltac:(discriminate)) as (Hauth & Herror & _).
    split; [exact Hauth|exact Herror].
Defined.

(** The further facts at the scenarios. *)

Lemma run_keeps_declarations_counter :
  is_Some (entities counter_app !! "counter")
  <-> is_Some (counter_decls !! "counter").
Proof.
  exact (proj1 (proj2 (run_keeps_declarations counter_decls counter_app
                         counter_app_reachable)) "counter").
Defined.

Lemma simple_dispatch_updates_counter :
  updates_of 1 (added counter_app
                      (dispatch "increment" JUndefined counter_app).1)
  = injected (dispatch "increment" JUndefined counter_app).1
      <$> filter (fun sub => componentIdentity sub = 1
                             /\ "counter" ∈ entityNames sub)
                 (subscribers counter_app).
Proof.
  exact (simple_dispatch_updates counter_decls counter_app "increment"
           "counter" increment JUndefined 1 counter_app_reachable eq_refl).
Defined.

Lemma readme_app_reachable : reachable readme_decls readme_app.
Proof. apply reach_construct. vm_compute. reflexivity. Defined.

Lemma two_step_dispatch_login :
  added readme_app (dispatch "login" creds readme_app).1
  = [EffectInvoked "login" creds 0] /\
  entities (dispatch "login" creds readme_app).1 = entities readme_app.
Proof.
  destruct (two_step_dispatch readme_decls readme_app "login" "session"
              "login" readme_login_completion creds
              readme_app_reachable eq_refl) as (_ & Hadd & Hent & _).
  split; [exact Hadd|exact Hent].
Defined.

End AppStateSpec.
